(** * Tessera: configuration, logging, migration 015 and the contract
      evolution engine

    A shallow embedding of the Python sources of the Tessera data-contract
    registry ([src/tessera/config.py], [src/tessera/logging.py],
    [alembic/versions/015_add_proposal_published_status.py]) and, for the
    parts of the engine whose code is not among the sources, of the
    behaviour the specification describes.

    Conventions.
    - A Python [str] is a sequence of Unicode code points: [pystr] is
      [list N].  Literals are written with [str_of].
    - A function that can raise returns [PyResult]: [Ok v] or [Raise e].
    - Dictionaries with insertion order (the log entry) are association
      lists; dictionaries used as maps are stdpp [gmap]s. *)

From Stdlib Require Import ZArith NArith Ascii String.
From stdpp Require Import base option list strings gmap fin_maps.

Local Open Scope N_scope.

(** ** Python strings *)

Module PyStr.

Definition char := N.
Definition pystr := list char.

Definition str_of (s : string) : pystr :=
  map N_of_ascii (list_ascii_of_string s).

(** [Py_UNICODE_ISSPACE]: the ASCII table entries 0x09-0x0D, 0x1C-0x1F and
    0x20, and above ASCII the code points [_PyUnicode_IsWhitespace]
    accepts.  This is the set [str.strip()] removes. *)
Definition is_space (c : char) : bool :=
  ((9 <=? c) && (c <=? 13)) || ((28 <=? c) && (c <=? 32))
  || (c =? 133) || (c =? 160) || (c =? 5760)
  || ((8192 <=? c) && (c <=? 8202))
  || (c =? 8232) || (c =? 8233) || (c =? 8239) || (c =? 8287)
  || (c =? 12288).

Fixpoint lstrip (s : pystr) : pystr :=
  match s with
  | [] => []
  | c :: s' => if is_space c then lstrip s' else s
  end.

Definition rstrip (s : pystr) : pystr := rev (lstrip (rev s)).

(** [s.strip()] *)
Definition strip (s : pystr) : pystr := rstrip (lstrip s).

(** [s.split(sep)] for a one-character separator: never the empty list. *)
Fixpoint split (sep : char) (s : pystr) : list pystr :=
  match s with
  | [] => [[]]
  | c :: s' =>
      if c =? sep then [] :: split sep s'
      else match split sep s' with
           | [] => [[c]]
           | w :: ws => (c :: w) :: ws
           end
  end.

(** [sep.join(parts)] *)
Fixpoint join (sep : pystr) (parts : list pystr) : pystr :=
  match parts with
  | [] => []
  | [p] => p
  | p :: ps => p ++ sep ++ join sep ps
  end.

(** Truth value of a string: non-empty. *)
Definition truthy (s : pystr) : bool :=
  match s with [] => false | _ => true end.

(** Truth value of a list: non-empty. *)
Definition list_truthy {A} (l : list A) : bool :=
  match l with [] => false | _ => true end.

Definition comma : char := 44.

Definition str_eqb (a b : pystr) : bool := bool_decide (a = b).

(** No whitespace at the start, at the end. *)
Definition no_lead (s : pystr) : Prop :=
  match s with
  | [] => True
  | c :: _ => is_space c = false
  end.

Definition no_trail (s : pystr) : Prop := no_lead (rev s).

(** Whitespace only. *)
Definition blank (s : pystr) : Prop := Forall (fun c => is_space c = true) s.

(** [e] is the text of [w] without the whitespace around it, and is not
    empty: [w] is [e] between two runs of whitespace, and [e] neither
    starts nor ends with whitespace. *)
Definition stripped_of (w e : pystr) : Prop :=
  exists l r,
    w = l ++ e ++ r /\ blank l /\ blank r
    /\ e <> [] /\ no_lead e /\ no_trail e.

(** [a] is a prefix of [b]; [a] occurs in [b] ([a in b]). *)
Fixpoint is_prefix (a b : pystr) : bool :=
  match a, b with
  | [], _ => true
  | _ :: _, [] => false
  | x :: a', y :: b' => (x =? y) && is_prefix a' b'
  end.

Fixpoint is_infix (a b : pystr) : bool :=
  is_prefix a b ||
  match b with
  | [] => false
  | _ :: b' => is_infix a b'
  end.

End PyStr.

Import PyStr.

(** Result of a Python call that may raise. *)
Inductive PyExc :=
| ValueError (msg : pystr)
| TypeError (msg : pystr).

Inductive PyResult (A : Type) :=
| Ok (v : A)
| Raise (e : PyExc).
Arguments Ok {A} v.
Arguments Raise {A} e.

(** ** [src/tessera/config.py] *)

Module Config.

Definition DEFAULT_SESSION_SECRET : pystr :=
  str_of "tessera-dev-secret-key-change-in-production".

(** The fields of [Settings] that the validators read, and those that
    configure logging, webhooks and proposal expiry. *)
Record Settings := {
  environment : pystr;
  log_level : pystr;
  log_format : pystr;
  auto_create_tables : bool;
  webhook_allowed_domains : list pystr;
  auth_disabled : bool;
  session_secret_key : pystr;
  rate_limit_enabled : bool;
  proposal_default_expiration_days : nat;
  proposal_auto_expire_enabled : bool;
}.

(** The raw value a [mode="before"] field validator receives. *)
Inductive RawList :=
| RawStr (v : pystr)
| RawSeq (v : list pystr).

(** [parse_webhook_allowed_domains]:
    [[domain.strip() for domain in v.split(",") if domain.strip()]]
    for a string, [v] itself otherwise. *)
Definition parse_webhook_allowed_domains (v : RawList) : list pystr :=
  match v with
  | RawStr s =>
      map (fun domain => strip domain)
          (List.filter (fun domain => truthy (strip domain)) (split comma s))
  | RawSeq l => l
  end.

(** [parse_cors_origins] has the same body. *)
Definition parse_cors_origins (v : RawList) : list pystr :=
  match v with
  | RawStr s =>
      map (fun origin => strip origin)
          (List.filter (fun origin => truthy (strip origin)) (split comma s))
  | RawSeq l => l
  end.

(** Modelled from the spec: the webhook URL validator that reads
    [settings.webhook_allowed_domains] is not among the sources.  The
    field's description in [config.py] and the spec give its rule for the
    empty list ("Empty list allows all domains"); how a domain is matched
    against a non-empty list is left to [matches]. *)
Definition domain_allowed (matches : pystr -> pystr -> bool)
    (allowed : list pystr) (domain : pystr) : bool :=
  match allowed with
  | [] => true
  | _ => existsb (matches domain) allowed
  end.

Definition quote : pystr := [34].

Definition secret_message (env : pystr) : pystr :=
  str_of "SESSION_SECRET_KEY must be set to a unique value in " ++ env
  ++ str_of ". Generate one with: python -c " ++ quote
  ++ str_of "import secrets; print(secrets.token_hex(32))" ++ quote.

Definition err_auto_create : pystr :=
  str_of "AUTO_CREATE_TABLES must be False in production. Use Alembic migrations for schema changes.".
Definition err_auth_disabled : pystr :=
  str_of "AUTH_DISABLED must be False in production. Authentication is required for security.".
Definition err_rate_limit : pystr :=
  str_of "RATE_LIMIT_ENABLED should be True in production. Disabling rate limits exposes the API to abuse.".

(** The list [errors] built by the three [if]s of the production branch. *)
Definition production_errors (self : Settings) : list pystr :=
  (if auto_create_tables self then [err_auto_create] else [])
  ++ (if auth_disabled self then [err_auth_disabled] else [])
  ++ (if negb (rate_limit_enabled self) then [err_rate_limit] else []).

Definition bullet : pystr := [10; 45; 32].

(** [Settings.validate_production_config] *)
Definition validate_production_config (self : Settings) : PyResult Settings :=
  if negb (str_eqb (environment self) (str_of "development")
           || str_eqb (environment self) (str_of "test"))
     && str_eqb (session_secret_key self) DEFAULT_SESSION_SECRET
  then Raise (ValueError (secret_message (environment self)))
  else if negb (str_eqb (environment self) (str_of "production"))
  then Ok self
  else
    let errors := production_errors self in
    if list_truthy errors
    then Raise (ValueError
                  (str_of "Production configuration validation failed:" ++ bullet
                   ++ join bullet errors))
    else Ok self.

(** The two conditions under which the validator refuses the settings. *)
Definition bad_secret (self : Settings) : Prop :=
  environment self <> str_of "development"
  /\ environment self <> str_of "test"
  /\ session_secret_key self = DEFAULT_SESSION_SECRET.

Definition bad_production (self : Settings) : Prop :=
  environment self = str_of "production"
  /\ (auto_create_tables self = true \/ auth_disabled self = true
      \/ rate_limit_enabled self = false).

(** An entry as the two list parsers leave it: non-empty, without
    whitespace at either end and without a comma. *)
Definition clean_entry (e : pystr) : Prop :=
  e <> [] /\ no_lead e /\ no_trail e /\ ~ In comma e.

(** What the comprehension of the two list parsers keeps of the pieces
    between the commas, said without [strip]: a piece of whitespace only
    is dropped, every other piece gives its text without the whitespace
    around it, and the entries come in the order of the pieces. *)
Inductive kept_entries : list pystr -> list pystr -> Prop :=
| kept_nil : kept_entries [] []
| kept_skip w ws es :
    blank w -> kept_entries ws es -> kept_entries (w :: ws) es
| kept_keep w e ws es :
    stripped_of w e -> kept_entries ws es -> kept_entries (w :: ws) (e :: es).

Definition production_header : pystr :=
  str_of "Production configuration validation failed:".

(** Production settings with every rule broken but the secret. *)
Definition careless_production : Settings :=
  {| environment := str_of "production"; log_level := str_of "INFO";
     log_format := str_of "json"; auto_create_tables := true;
     webhook_allowed_domains := []; auth_disabled := true;
     session_secret_key := str_of "0f3a"; rate_limit_enabled := false;
     proposal_default_expiration_days := 30;
     proposal_auto_expire_enabled := true |}.

End Config.

(** ** The [json] encoder and decoder, for objects of strings

    [json.dumps] with its defaults ([ensure_ascii=True], separators
    [", "] and [": "], no indent), restricted to dictionaries whose keys
    and values are strings, which is what [JSONFormatter.format] passes;
    and the decoder [json.loads] on the same fragment. *)

Module Json.

Definition hexdigit (d : N) : char := if d <? 10 then 48 + d else 87 + d.

(** ['{0:04x}'.format(n)] for [n < 0x10000]. *)
Definition hex4 (n : N) : pystr :=
  [hexdigit (n / 4096 mod 16); hexdigit (n / 256 mod 16);
   hexdigit (n / 16 mod 16); hexdigit (n mod 16)].

Definition backslash : char := 92.
Definition dquote : char := 34.

(** The replacement [py_encode_basestring_ascii] makes for one character:
    [ESCAPE_ASCII] selects the backslash, the double quote and every
    character outside the range from space to tilde; [ESCAPE_DCT] gives
    the short escapes, the rest becomes a [u]-escape of four hex digits,
    as a surrogate pair above the basic plane. *)
Definition escape_char (c : char) : pystr :=
  if c =? backslash then [backslash; backslash]
  else if c =? dquote then [backslash; dquote]
  else if (32 <=? c) && (c <=? 126) then [c]
  else if c =? 8 then [backslash; 98]
  else if c =? 12 then [backslash; 102]
  else if c =? 10 then [backslash; 110]
  else if c =? 13 then [backslash; 114]
  else if c =? 9 then [backslash; 116]
  else if c <? 65536 then backslash :: 117 :: hex4 c
  else
    let n := c - 65536 in
    let s1 := N.lor 55296 (N.land (N.shiftr n 10) 1023) in
    let s2 := N.lor 56320 (N.land n 1023) in
    (backslash :: 117 :: hex4 s1) ++ (backslash :: 117 :: hex4 s2).

Fixpoint escape (s : pystr) : pystr :=
  match s with
  | [] => []
  | c :: s' => escape_char c ++ escape s'
  end.

Definition encode_basestring_ascii (s : pystr) : pystr :=
  dquote :: escape s ++ [dquote].

Definition dump_item (kv : pystr * pystr) : pystr :=
  encode_basestring_ascii (fst kv) ++ [58; 32] ++ encode_basestring_ascii (snd kv).

(** [json.dumps(d)] for [d : dict[str, str]], items in insertion order. *)
Definition dumps (d : list (pystr * pystr)) : pystr :=
  [123] ++ join [44; 32] (map dump_item d) ++ [125].

(** *** Decoder *)

Definition hexval (c : char) : option N :=
  if (48 <=? c) && (c <=? 57) then Some (c - 48)
  else if (97 <=? c) && (c <=? 102) then Some (c - 87)
  else if (65 <=? c) && (c <=? 70) then Some (c - 55)
  else None.

(** [_decode_uXXXX] *)
Definition decode_hex4 (a b c d : char) : option N :=
  match hexval a, hexval b, hexval c, hexval d with
  | Some x, Some y, Some z, Some w => Some (4096 * x + 256 * y + 16 * z + w)
  | _, _, _, _ => None
  end.

(** The table [BACKSLASH] of the one-letter escapes. *)
Definition unescape (e : char) : option char :=
  if e =? dquote then Some dquote
  else if e =? backslash then Some backslash
  else if e =? 47 then Some 47
  else if e =? 98 then Some 8
  else if e =? 102 then Some 12
  else if e =? 110 then Some 10
  else if e =? 114 then Some 13
  else if e =? 116 then Some 9
  else None.

Definition is_high (u : N) : bool := (55296 <=? u) && (u <=? 56319).
Definition is_low (u : N) : bool := (56320 <=? u) && (u <=? 57343).
Definition combine (u u2 : N) : N :=
  65536 + N.lor (N.shiftl (u - 55296) 10) (u2 - 56320).

Definition push (c : char) (r : option (pystr * pystr)) : option (pystr * pystr) :=
  match r with
  | Some (d, rest) => Some (c :: d, rest)
  | None => None
  end.

(** [scanstring] in strict mode, entered after the opening quote: the
    decoded string and the input that follows the closing quote. *)
Fixpoint scanstring (s : pystr) : option (pystr * pystr) :=
  match s with
  | [] => None
  | c :: r =>
      if c =? dquote then Some ([], r)
      else if c =? backslash then
        match r with
        | [] => None
        | e :: r1 =>
            if e =? 117 then
              match r1 with
              | h1 :: h2 :: h3 :: h4 :: r2 =>
                  match decode_hex4 h1 h2 h3 h4 with
                  | None => None
                  | Some uni =>
                      if is_high uni then
                        match r2 with
                        | b :: u :: r3 =>
                            if (b =? backslash) && (u =? 117) then
                              match r3 with
                              | g1 :: g2 :: g3 :: g4 :: r4 =>
                                  match decode_hex4 g1 g2 g3 g4 with
                                  | None => None
                                  | Some uni2 =>
                                      if is_low uni2
                                      then push (combine uni uni2) (scanstring r4)
                                      else push uni (scanstring r2)
                                  end
                              | _ => None
                              end
                            else push uni (scanstring r2)
                        | _ => push uni (scanstring r2)
                        end
                      else push uni (scanstring r2)
                  end
              | _ => None
              end
            else
              match unescape e with
              | None => None
              | Some ch => push ch (scanstring r1)
              end
        end
      else if c <? 32 then None
      else push c (scanstring r)
  end.

Definition is_ws (c : char) : bool :=
  (c =? 32) || (c =? 9) || (c =? 10) || (c =? 13).

Fixpoint skip_ws (s : pystr) : pystr :=
  match s with
  | [] => []
  | c :: r => if is_ws c then skip_ws r else s
  end.

(** The members of an object, entered at the quote that opens a key; the
    value of a member must be a string (other values are outside the
    fragment and give [None]).  [fuel] bounds the number of members. *)
Fixpoint parse_members (fuel : nat) (s : pystr)
  : option (list (pystr * pystr) * pystr) :=
  match fuel with
  | O => None
  | S fuel' =>
      match s with
      | q :: r =>
          if negb (q =? dquote) then None else
          match scanstring r with
          | None => None
          | Some (k, r1) =>
              match skip_ws r1 with
              | colon :: r2 =>
                  if negb (colon =? 58) then None else
                  match skip_ws r2 with
                  | q2 :: r3 =>
                      if negb (q2 =? dquote) then None else
                      match scanstring r3 with
                      | None => None
                      | Some (v, r4) =>
                          match skip_ws r4 with
                          | d :: r5 =>
                              if d =? 125 then Some ([(k, v)], r5)
                              else if d =? 44 then
                                match parse_members fuel' (skip_ws r5) with
                                | Some (ms, rest) => Some ((k, v) :: ms, rest)
                                | None => None
                                end
                              else None
                          | [] => None
                          end
                      end
                  | [] => None
                  end
              | [] => None
              end
          end
      | [] => None
      end
  end.

(** [json.loads(s)] when [s] is an object whose values are strings: its
    members in document order.  [None] is a decoding error (or a document
    outside the fragment). *)
Definition loads (s : pystr) : option (list (pystr * pystr)) :=
  match skip_ws s with
  | b :: r =>
      if negb (b =? 123) then None else
      match skip_ws r with
      | c :: r1 =>
          if c =? 125 then
            match skip_ws r1 with [] => Some [] | _ => None end
          else
            match parse_members (length s) (c :: r1) with
            | Some (ms, rest) =>
                match skip_ws rest with [] => Some ms | _ => None end
            | None => None
            end
      | [] => None
      end
  | [] => None
  end.

(** Printable ASCII: from space to tilde. *)
Definition printable (c : char) : bool := (32 <=? c) && (c <=? 126).

(** A character that [escape_char] leaves as it is. *)
Definition plain_char (c : char) : bool :=
  printable c && negb (c =? dquote) && negb (c =? backslash).

(** The body of a string literal, token by token: an unescaped
    character, a one-letter escape, or a [u]-escape of four hex digits. *)
Inductive body : pystr -> Prop :=
| body_nil : body []
| body_plain c t :
    (c <? 32) = false -> (c =? dquote) = false -> (c =? backslash) = false ->
    body t -> body (c :: t)
| body_short e ch t :
    unescape e = Some ch -> body t -> body (backslash :: e :: t)
| body_u h1 h2 h3 h4 u t :
    decode_hex4 h1 h2 h3 h4 = Some u -> body t ->
    body (backslash :: 117 :: h1 :: h2 :: h3 :: h4 :: t).

(** A string of characters that need no escape. *)
Definition plain (k : pystr) : Prop := Forall (fun c => plain_char c = true) k.

(** A member read back from a written one: the same key, and the same
    value when the value needed no escape. *)
Definition same_member (m e : pystr * pystr) : Prop :=
  fst m = fst e /\ (plain (snd e) -> snd m = snd e).

(** A Unicode scalar value: a code point below 0x110000 that is not a
    surrogate.  A string of scalar values is what [str] holds unless
    lone surrogates were put into it. *)
Definition scalar (c : char) : bool :=
  (c <? 55296) || ((57343 <? c) && (c <? 1114112)).

Definition scalar_str (s : pystr) : Prop := Forall (fun c => scalar c = true) s.

(** A dictionary item whose key and value hold scalar values only. *)
Definition scalar_item (kv : pystr * pystr) : Prop :=
  scalar_str (fst kv) /\ scalar_str (snd kv).

End Json.

(** ** [src/tessera/logging.py] *)

Module Logging.

(** Arguments of a log call, as far as the model follows them. *)
Inductive PyVal :=
| VStr (s : pystr)
| VInt (z : Z)
| VNone.

(** The triple [sys.exc_info()] returns: [(None, None, None)] outside an
    [except] block, so each component may be [None].  [ei_trace] stands
    for the traceback object. *)
Record ExcInfo := {
  ei_type : option pystr;
  ei_value : option pystr;
  ei_trace : list pystr;
}.

(** The attributes of [logging.LogRecord] that [format] reads. *)
Record LogRecord := {
  name : pystr;
  levelname : pystr;
  msg : pystr;
  args : list PyVal;
  exc_info : option ExcInfo;
}.

Section Formatter.

(** The [%] operator of [str] and [Formatter.formatException] are the
    standard library's; [now_iso] is [datetime.now(UTC).isoformat()]. *)
Variable percent : pystr -> list PyVal -> PyResult pystr.
Variable formatException : ExcInfo -> pystr.
Variable now_iso : pystr.

(** [LogRecord.getMessage]: [msg = str(self.msg)], then [msg % self.args]
    when [self.args] is non-empty. *)
Definition getMessage (record : LogRecord) : PyResult pystr :=
  if list_truthy (args record)
  then percent (msg record) (args record)
  else Ok (msg record).

(** [d[k] = v] on an insertion-ordered dictionary. *)
Fixpoint dict_set (d : list (pystr * pystr)) (k v : pystr) : list (pystr * pystr) :=
  match d with
  | [] => [(k, v)]
  | (k', v') :: d' =>
      if str_eqb k' k then (k', v) :: d' else (k', v') :: dict_set d' k v
  end.

(** [record.exc_info and record.exc_info[1] is not None] *)
Definition has_exception (record : LogRecord) : bool :=
  match exc_info record with
  | Some ei => match ei_value ei with Some _ => true | None => false end
  | None => false
  end.

(** The dictionary [log_entry] at the [return], given the message. *)
Definition log_entry (record : LogRecord) (message : pystr) : list (pystr * pystr) :=
  let entry :=
    [(str_of "timestamp", now_iso);
     (str_of "level", levelname record);
     (str_of "logger", name record);
     (str_of "message", message)] in
  match exc_info record with
  | Some ei =>
      match ei_value ei with
      | Some _ => dict_set entry (str_of "exc_info") (formatException ei)
      | None => entry
      end
  | None => entry
  end.

(** [JSONFormatter.format] *)
Definition format (record : LogRecord) : PyResult pystr :=
  match getMessage record with
  | Raise e => Raise e
  | Ok message => Ok (Json.dumps (log_entry record message))
  end.

End Formatter.

(** *** A fragment of the [%] operator

    Conversion types [s] and [d] and the literal [%%], without mapping
    key, flags, width or precision.  On this fragment the results and the
    exceptions are Python's.  A conversion outside it is reported as an
    unsupported format character, which is Python's answer only for
    characters that are no conversion type at all; the theorems about
    [format] hold for every implementation of [%] and do not rest on this
    one. *)

Fixpoint uint_digits (d : Decimal.uint) : pystr :=
  match d with
  | Decimal.Nil => []
  | Decimal.D0 d => 48 :: uint_digits d
  | Decimal.D1 d => 49 :: uint_digits d
  | Decimal.D2 d => 50 :: uint_digits d
  | Decimal.D3 d => 51 :: uint_digits d
  | Decimal.D4 d => 52 :: uint_digits d
  | Decimal.D5 d => 53 :: uint_digits d
  | Decimal.D6 d => 54 :: uint_digits d
  | Decimal.D7 d => 55 :: uint_digits d
  | Decimal.D8 d => 56 :: uint_digits d
  | Decimal.D9 d => 57 :: uint_digits d
  end.

Definition int_str (z : Z) : pystr :=
  match Z.to_int z with
  | Decimal.Pos d => uint_digits d
  | Decimal.Neg d => 45 :: uint_digits d
  end.

(** [str(v)] *)
Definition py_str (v : PyVal) : pystr :=
  match v with
  | VStr s => s
  | VInt z => int_str z
  | VNone => str_of "None"
  end.

Definition percent_sign : char := 37.

Definition ok_cons (c : pystr) (r : PyResult pystr) : PyResult pystr :=
  match r with Ok s => Ok (c ++ s) | Raise e => Raise e end.

Fixpoint percent_sd (fmt : pystr) (vals : list PyVal) : PyResult pystr :=
  match fmt with
  | [] =>
      match vals with
      | [] => Ok []
      | _ => Raise (TypeError (str_of "not all arguments converted during string formatting"))
      end
  | c :: r =>
      if negb (c =? percent_sign) then ok_cons [c] (percent_sd r vals) else
      match r with
      | [] => Raise (ValueError (str_of "incomplete format"))
      | t :: r' =>
          if t =? percent_sign then ok_cons [percent_sign] (percent_sd r' vals)
          else if t =? 115 then
            match vals with
            | [] => Raise (TypeError (str_of "not enough arguments for format string"))
            | v :: vals' => ok_cons (py_str v) (percent_sd r' vals')
            end
          else if t =? 100 then
            match vals with
            | [] => Raise (TypeError (str_of "not enough arguments for format string"))
            | VInt z :: vals' => ok_cons (int_str z) (percent_sd r' vals')
            | VStr _ :: _ =>
                Raise (TypeError (str_of "%d format: a real number is required, not str"))
            | VNone :: _ =>
                Raise (TypeError (str_of "%d format: a real number is required, not NoneType"))
            end
          else Raise (ValueError (str_of "unsupported format character"))
      end
  end.

(** *** [configure_logging] *)

Inductive Formatter :=
| JSONFormatter
| PlainFormatter (fmt datefmt : pystr).

Inductive Stream := Stderr | OtherStream (n : nat).

(** A handler object: [h_id] is its identity ([in] on a list of handlers
    compares objects by identity). *)
Record Handler := {
  h_id : nat;
  h_stream : Stream;
  h_formatter : option Formatter;
}.

(** The logging module's state that [configure_logging] touches: the root
    logger's handler list and level, the levels of the named loggers, and
    the supply of fresh object identities. *)
Record LogState := {
  root_handlers : list Handler;
  root_level : nat;
  named_level : gmap pystr nat;
  next_id : nat;
}.

Definition WARNING : nat := 30.

(** [logging._nameToLevel] *)
Definition nameToLevel (n : pystr) : option nat :=
  if str_eqb n (str_of "CRITICAL") then Some 50%nat
  else if str_eqb n (str_of "FATAL") then Some 50%nat
  else if str_eqb n (str_of "ERROR") then Some 40%nat
  else if str_eqb n (str_of "WARN") then Some 30%nat
  else if str_eqb n (str_of "WARNING") then Some 30%nat
  else if str_eqb n (str_of "INFO") then Some 20%nat
  else if str_eqb n (str_of "DEBUG") then Some 10%nat
  else if str_eqb n (str_of "NOTSET") then Some 0%nat
  else None.

(** [Logger.addHandler]: append unless the object is already listed. *)
Definition addHandler (hs : list Handler) (h : Handler) : list Handler :=
  if existsb (fun h' => Nat.eqb (h_id h') (h_id h)) hs then hs else hs ++ [h].

(** [logging.getLogger(n).setLevel(lv)] for a named logger. *)
Definition set_named_level (n : pystr) (lv : nat) (st : LogState) : LogState :=
  {| root_handlers := root_handlers st;
     root_level := root_level st;
     named_level := <[n := lv]> (named_level st);
     next_id := next_id st |}.

Definition text_format : pystr :=
  str_of "%(asctime)s %(levelname)-8s %(name)s  %(message)s".
Definition text_datefmt : pystr := str_of "%Y-%m-%d %H:%M:%S".

(** The handler built by lines 57-67. *)
Definition new_handler (fmt : pystr) (st : LogState) : Handler :=
  {| h_id := next_id st;
     h_stream := Stderr;
     h_formatter :=
       Some (if str_eqb fmt (str_of "json") then JSONFormatter
             else PlainFormatter text_format text_datefmt) |}.

Section Configure.

(** [str.upper] is the standard library's. *)
Variable upper : pystr -> pystr.

(** [configure_logging(level, fmt)]: the state it leaves and whether it
    returned.  [root.setLevel] raises [ValueError] on an unknown level
    name, after the handler has been installed; its message is the
    prefix below followed by the [repr] of the name, written here for a
    name that needs no escaping. *)
Definition configure_logging (level fmt : pystr) (st : LogState)
  : LogState * PyResult unit :=
  let cleared : list Handler := [] in
  let handler := new_handler fmt st in
  let st1 :=
    {| root_handlers := addHandler cleared handler;
       root_level := root_level st;
       named_level := named_level st;
       next_id := S (next_id st) |} in
  match nameToLevel (upper level) with
  | None =>
      (st1, Raise (ValueError
                     (str_of "Unknown level: '" ++ upper level ++ str_of "'")))
  | Some lv =>
      let st2 :=
        {| root_handlers := root_handlers st1;
           root_level := lv;
           named_level := named_level st1;
           next_id := next_id st1 |} in
      (set_named_level (str_of "httpcore") WARNING
         (set_named_level (str_of "httpx") WARNING
            (set_named_level (str_of "uvicorn.access") WARNING st2)),
       Ok tt)
  end.

End Configure.

(** What a handler is configured with, apart from its identity. *)
Definition handler_config (h : Handler) : Stream * option Formatter :=
  (h_stream h, h_formatter h).

Definition base_keys : list pystr :=
  [str_of "timestamp"; str_of "level"; str_of "logger"; str_of "message"].

(** The keys [format] is to write for a record. *)
Definition expected_keys (record : LogRecord) : list pystr :=
  base_keys ++ (if has_exception record then [str_of "exc_info"] else []).

(** A timestamp and a quoted literal, for the examples. *)
Definition test_now : pystr := str_of "2026-02-16T12:00:00+00:00".

Definition quoted (s : string) : pystr := [Json.dquote] ++ str_of s ++ [Json.dquote].

(** A record whose message holds a newline, a quote, a backslash, a
    Latin-1 letter and a character above the basic plane. *)
Definition unicode_record : LogRecord :=
  {| name := str_of "tessera.test"; levelname := str_of "INFO";
     msg := str_of "caf" ++ [233; 10; 34; 92; 128512] ++ str_of " 100%";
     args := []; exc_info := None |}.

End Logging.

(** ** [alembic/versions/015_add_proposal_published_status.py] *)

Module Migration015.

Local Open Scope string_scope.

Inductive Dialect := sqlite | postgresql.

(** The part of the database the migration touches: the dialect of the
    bind and the two PostgreSQL enum types, each as its labels in sort
    order.  On SQLite the columns are VARCHAR and the two lists are not
    consulted. *)
Record Database := {
  dialect : Dialect;
  proposalstatus : list string;
  webhookdeliverystatus : list string;
}.

(** The failure of a statement that depends on the labels of the type:
    the neighbour named after [AFTER] is not one of them.  A database
    without one of the two types, or a statement that fails for another
    reason, has no counterpart here: [Database] holds both types. *)
Inductive SqlError :=
| not_an_existing_enum_label (label : string).

Definition has_label (l : string) (labels : list string) : bool :=
  existsb (String.eqb l) labels.

Fixpoint insert_after (neighbor new : string) (labels : list string) : list string :=
  match labels with
  | [] => []
  | l :: ls =>
      if String.eqb l neighbor then l :: new :: ls
      else l :: insert_after neighbor new ls
  end.

(** PostgreSQL's [ALTER TYPE t ADD VALUE IF NOT EXISTS new AFTER neighbor]
    on the labels of [t]: a label that exists already is skipped with a
    notice; otherwise [neighbor] must be an existing label, and [new] is
    placed directly after it. *)
Definition add_value_if_not_exists_after (new neighbor : string)
    (labels : list string) : SqlError + list string :=
  if has_label new labels then inr labels
  else if has_label neighbor labels then inr (insert_after neighbor new labels)
  else inl (not_an_existing_enum_label neighbor).

(** [_is_sqlite] *)
Definition _is_sqlite (db : Database) : bool :=
  match dialect db with sqlite => true | postgresql => false end.

(** [upgrade]: the database after the migration, or the error of the
    statement that failed (the migration's transaction is then rolled
    back). *)
Definition upgrade (db : Database) : SqlError + Database :=
  if _is_sqlite db then inr db
  else
    match add_value_if_not_exists_after "published" "approved" (proposalstatus db) with
    | inl e => inl e
    | inr ps =>
        match add_value_if_not_exists_after "dead_lettered" "failed"
                (webhookdeliverystatus db) with
        | inl e => inl e
        | inr ws =>
            inr {| dialect := dialect db;
                   proposalstatus := ps;
                   webhookdeliverystatus := ws |}
        end
    end.

(** [downgrade]: [pass]. *)
Definition downgrade (db : Database) : Database := db.

(** The vocabularies the specification lists. *)
Definition spec_proposal_vocabulary : list string :=
  ["pending"; "published"; "withdrawn"; "expired"; "rejected"].
Definition spec_delivery_vocabulary : list string :=
  ["pending"; "delivered"; "failed"; "dead_lettered"].

(** Two lists hold the same labels. *)
Definition same_labels (a b : list string) : Prop :=
  forall l, In l a <-> In l b.

(** The labels the two types hold when the migration starts.  The
    migrations that create the types are not among the sources: these
    are the vocabularies of the specification without the value this
    migration adds, and with [approved], which its first statement names
    as an existing label. *)
Definition proposal_vocabulary_before : list string :=
  ["pending"; "approved"; "withdrawn"; "expired"; "rejected"].
Definition delivery_vocabulary_before : list string :=
  ["pending"; "delivered"; "failed"].

(** The proposal statuses before the migration: the type still holds
    [approved] and not yet [published]. *)
Definition before_015 : Database :=
  {| dialect := postgresql;
     proposalstatus := ["pending"; "approved"; "rejected"; "withdrawn"; "expired"];
     webhookdeliverystatus := ["pending"; "delivered"; "failed"] |}.

End Migration015.

(** ** The compatibility checker

    Modelled from the spec: the checker's code is not among the sources.
    A schema document maps each field path to its node (type, required,
    default, constraints); the rules are those of section 4.1. *)

Module Checker.

Local Open Scope string_scope.
Local Open Scope list_scope.

Inductive Mode := backward | forward | full | none.

Inductive FType := TInteger | TNumber | TString | TBoolean | TObject | TArray.

(** A node of a schema document: type, whether the field is required,
    whether it has a default, and its constraints (the admitted values of
    an enumeration, a maximal length). *)
Record Field := {
  f_type : FType;
  f_required : bool;
  f_has_default : bool;
  f_enum : option (list string);
  f_max_length : option nat;
}.

Inductive ChangeKind :=
| field_removed
| type_narrowed
| required_added
| type_changed
| constraint_tightened.

Record Change := {
  kind : ChangeKind;
  field : string;
}.

Inductive Outcome :=
| compatible
| breaking (changes : list Change).

Inductive RegistrationStatus := reg_active | reg_cancelled.

(** A registration as the checker sees it: the consumer team, the status,
    the soft-delete timestamp and the schema of the contract version it
    is bound to. *)
Record Registration := {
  reg_team : string;
  reg_status : RegistrationStatus;
  reg_deleted_at : option nat;
  reg_schema : gmap string Field;
}.

Definition FType_eqb (a b : FType) : bool :=
  match a, b with
  | TInteger, TInteger | TNumber, TNumber | TString, TString
  | TBoolean, TBoolean | TObject, TObject | TArray, TArray => true
  | _, _ => false
  end.

(** Modelled from the spec: the checker's code is not among the sources.
    A type is narrowed when a number becomes an integer; the reverse
    widens it; any other difference is a change of type. *)
Definition type_changes (path : string) (o n : Field) : list Change :=
  if FType_eqb (f_type o) (f_type n) then []
  else match f_type o, f_type n with
       | TNumber, TInteger => [{| kind := type_narrowed; field := path |}]
       | TInteger, TNumber => []
       | _, _ => [{| kind := type_changed; field := path |}]
       end.

Definition subset_values (vs ws : list string) : bool :=
  forallb (fun v => existsb (String.eqb v) ws) vs.

(** Modelled from the spec: relaxing a constraint and adding enum values
    are compatible; a constraint that is new, an enumeration that loses a
    value and a smaller maximal length tighten. *)
Definition enum_tightened (o n : Field) : bool :=
  match f_enum o, f_enum n with
  | _, None => false
  | None, Some _ => true
  | Some vs, Some ws => negb (subset_values vs ws)
  end.

Definition length_tightened (o n : Field) : bool :=
  match f_max_length o, f_max_length n with
  | _, None => false
  | None, Some _ => true
  | Some a, Some b => Nat.ltb b a
  end.

Definition constraint_changes (path : string) (o n : Field) : list Change :=
  if enum_tightened o n || length_tightened o n
  then [{| kind := constraint_tightened; field := path |}]
  else [].

(** Modelled from the spec: the [backward] rule.  Removing a required
    field, narrowing or changing a type, tightening a constraint, and
    adding a required field without a default are breaking; adding an
    optional field and removing an optional one are not. *)
Definition backward_field (new : gmap string Field) (pf : string * Field)
  : list Change :=
  match new !! fst pf with
  | None =>
      if f_required (snd pf)
      then [{| kind := field_removed; field := fst pf |}] else []
  | Some n => type_changes (fst pf) (snd pf) n ++ constraint_changes (fst pf) (snd pf) n
  end.

Definition backward_added (old : gmap string Field) (pf : string * Field)
  : list Change :=
  match old !! fst pf with
  | Some _ => []
  | None =>
      if f_required (snd pf) && negb (f_has_default (snd pf))
      then [{| kind := required_added; field := fst pf |}] else []
  end.

Definition backward_changes (old new : gmap string Field) : list Change :=
  flat_map (backward_field new) (map_to_list old)
  ++ flat_map (backward_added old) (map_to_list new).

(** An active registration: status [active] and not soft-deleted. *)
Definition is_live (r : Registration) : bool :=
  match reg_status r, reg_deleted_at r with
  | reg_active, None => true
  | _, _ => false
  end.

(** The field is referenced by the schema of some active registration. *)
Definition referenced (regs : list Registration) (path : string) : bool :=
  existsb (fun r => is_live r && bool_decide (is_Some (reg_schema r !! path))) regs.

(** Modelled from the spec: the [forward] rule.  Removing a field, or
    making an optional field required, is breaking only for a field that
    the schema of an active registration references. *)
Definition forward_field (new : gmap string Field) (regs : list Registration)
    (pf : string * Field) : list Change :=
  if referenced regs (fst pf) then
    match new !! fst pf with
    | None => [{| kind := field_removed; field := fst pf |}]
    | Some n =>
        if negb (f_required (snd pf)) && f_required n
        then [{| kind := required_added; field := fst pf |}] else []
    end
  else [].

Definition forward_changes (old new : gmap string Field)
    (regs : list Registration) : list Change :=
  flat_map (forward_field new regs) (map_to_list old).

(** Modelled from the spec: [check(old_schema, new_schema, mode,
    active_registrations)].  The new schema has to remain compatible
    with the active registrations: without one there is nothing to
    break.  [full] reports the violations of both directions, [none]
    performs no check. *)
Definition check (old new : gmap string Field) (mode : Mode)
    (regs : list Registration) : Outcome :=
  let changes :=
    if existsb is_live regs then
      match mode with
      | backward => backward_changes old new
      | forward => forward_changes old new regs
      | full => backward_changes old new ++ forward_changes old new regs
      | none => []
      end
    else [] in
  match changes with
  | [] => compatible
  | _ => breaking changes
  end.

(** Fields and a registration for the examples. *)
Definition int_field (required : bool) : Field :=
  {| f_type := TInteger; f_required := required; f_has_default := false;
     f_enum := None; f_max_length := None |}.

Definition str_field (required : bool) : Field :=
  {| f_type := TString; f_required := required; f_has_default := false;
     f_enum := None; f_max_length := None |}.

Definition consumer_of (schema : gmap string Field) (team : string) : Registration :=
  {| reg_team := team; reg_status := reg_active; reg_deleted_at := None;
     reg_schema := schema |}.

End Checker.

(** ** The contract evolution and notification engine

    Modelled from the spec: the engine's code (publish, the proposal
    state machine, the delivery dispatcher and the dead-letter sink) is
    not among the sources; only tests that call it through the HTTP API
    are.  Every definition of this module follows the specification: its
    data model (section 3), the transition table of the proposal state
    machine (4.2), the dispatcher with its circuit breaker (4.3), the
    dead-letter sink (4.4) and the interfaces (6).  Payload signing and
    DNS validation of destinations are left out. *)

Module Engine.

Import Checker.
Local Open Scope string_scope.
Local Open Scope list_scope.
Local Open Scope nat_scope.

Inductive ContractStatus := active | superseded | draft.

Record Contract := {
  c_asset : string;
  c_version : string;
  c_schema : gmap string Field;
  c_mode : Mode;
  c_status : ContractStatus;
  c_published_by : string;
}.

(** A registration binds a consumer team to the contract version
    [(r_asset, r_version)]. *)
Record Reg := {
  r_asset : string;
  r_version : string;
  r_team : string;
  r_status : RegistrationStatus;
  r_deleted_at : option nat;
}.

Inductive ProposalStatus := pending | published | withdrawn | expired | rejected.

Inductive Actor := team_actor (team : string) | system_actor.

Record Proposal := {
  p_asset : string;
  p_current : string;
  p_proposed : string;
  p_schema : gmap string Field;
  p_mode : Mode;
  p_producer : string;
  p_status : ProposalStatus;
  p_created : nat;
  p_expires : nat;
  p_resolved_at : option nat;
  p_resolved_by : option Actor;
  p_changes : list Change;
  p_affected : list string;
}.

Record Objection := {
  o_proposal : nat;
  o_team : string;
  o_reason : string;
  o_time : nat;
}.

(** An asset, for the soft-delete and restore transitions. *)
Record AssetRow := {
  a_fqn : string;
  a_owner : string;
  a_deleted_at : option nat;
}.

(** The fixed envelope of an event: action, entity type and identifier,
    actor, structured payload.  Audit events and notifications share it. *)
Record Event := {
  e_action : string;
  e_entity_type : string;
  e_entity_id : nat;
  e_actor : Actor;
  e_payload : list (string * string);
  e_changes : list Change;
}.

Record Notification := {
  n_event : Event;
  n_recipients : list string;
}.

Inductive DeliveryStatus := d_pending | delivered | failed | dead_lettered.

Record DeliveryRecord := {
  d_event : Event;
  d_dest : string;
  d_attempts : nat;
  d_status : DeliveryStatus;
  d_last_attempt : option nat;
  d_next_retry : option nat;
  d_replay_of : option nat;
}.

Inductive BreakerState := closed | open | half_open.

Record Breaker := {
  b_state : BreakerState;
  b_failures : nat;
  b_changed : nat;
}.

(** The governance state: what the proposal state machine and publish
    read and write.  Contracts, proposals and assets are identified by
    their position in the (append-only) lists. *)
Record Gov := {
  contracts : list Contract;
  registrations : list Reg;
  proposals : list Proposal;
  objections : list Objection;
  assets : list AssetRow;
}.

(** The dispatcher's state: delivery records and the breaker of each
    destination. *)
Record Dispatch := {
  deliveries : list DeliveryRecord;
  breakers : gmap string Breaker;
}.

Record State := {
  gov : Gov;
  disp : Dispatch;
  audit_log : list Event;
}.

Definition init : State :=
  {| gov := {| contracts := []; registrations := []; proposals := [];
               objections := []; assets := [] |};
     disp := {| deliveries := []; breakers := ∅ |};
     audit_log := [] |}.

Inductive Error :=
| ValidationError
| ConflictError (existing_proposal : nat)
| NotFoundError
| ProposalAlreadyResolved (resolved_as : ProposalStatus)
| ProposalNotPending (status : ProposalStatus)
| NotDeadLettered (status : DeliveryStatus).

Inductive Result (A : Type) :=
| Done (v : A)
| Failed (e : Error).
Arguments Done {A} v.
Arguments Failed {A} e.

Inductive PublishResult :=
| activated (contract_id : nat)
| proposal_created (proposal_id : nat).

Inductive Resolution := withdraw | reject | approve.

(** What a transition asks of the collaborators: audit events for the
    audit sink and notifications for the dispatcher. *)
Record Effects := {
  fx_audit : list Event;
  fx_notify : list Notification;
}.

Definition set_contracts (g : Gov) (cs : list Contract) : Gov :=
  {| contracts := cs; registrations := registrations g; proposals := proposals g;
     objections := objections g; assets := assets g |}.
Definition set_registrations (g : Gov) (rs : list Reg) : Gov :=
  {| contracts := contracts g; registrations := rs; proposals := proposals g;
     objections := objections g; assets := assets g |}.
Definition set_proposals (g : Gov) (ps : list Proposal) : Gov :=
  {| contracts := contracts g; registrations := registrations g; proposals := ps;
     objections := objections g; assets := assets g |}.
Definition set_objections (g : Gov) (os : list Objection) : Gov :=
  {| contracts := contracts g; registrations := registrations g;
     proposals := proposals g; objections := os; assets := assets g |}.
Definition set_assets (g : Gov) (xs : list AssetRow) : Gov :=
  {| contracts := contracts g; registrations := registrations g;
     proposals := proposals g; objections := objections g; assets := xs |}.

Definition is_active (c : Contract) : bool :=
  match c_status c with active => true | _ => false end.

Definition is_pending (p : Proposal) : bool :=
  match p_status p with pending => true | _ => false end.

Definition with_status (c : Contract) (st : ContractStatus) : Contract :=
  {| c_asset := c_asset c; c_version := c_version c; c_schema := c_schema c;
     c_mode := c_mode c; c_status := st; c_published_by := c_published_by c |}.

(** The number of active contracts of an asset. *)
Definition count_active (a : string) (cs : list Contract) : nat :=
  length (List.filter (fun c => String.eqb (c_asset c) a && is_active c) cs).

(** The active contract of an asset. *)
Definition active_contract (a : string) (cs : list Contract) : option Contract :=
  List.find (fun c => String.eqb (c_asset c) a && is_active c) cs.

Definition supersede (a : string) (c : Contract) : Contract :=
  if String.eqb (c_asset c) a && is_active c then with_status c superseded else c.

(** Modelled from the spec: activating a contract supersedes the prior
    active contract of its asset and appends the new version as active;
    nothing is deleted. *)
Definition activate (cs : list Contract) (new : Contract) : list Contract :=
  map (supersede (c_asset new)) cs ++ [with_status new active].

(** The first pending proposal of an asset. *)
Fixpoint pending_for (a : string) (i : nat) (ps : list Proposal) : option nat :=
  match ps with
  | [] => None
  | p :: ps' =>
      if String.eqb (p_asset p) a && is_pending p then Some i
      else pending_for a (S i) ps'
  end.

Definition reg_live (r : Reg) : bool :=
  match r_status r, r_deleted_at r with
  | reg_active, None => true
  | _, _ => false
  end.

Definition bound_to (c : Contract) (r : Reg) : bool :=
  String.eqb (r_asset r) (c_asset c) && String.eqb (r_version r) (c_version c).

(** The registrations bound to the contract, as the checker takes them. *)
Definition checker_regs (g : Gov) (c : Contract) : list Registration :=
  map (fun r => {| reg_team := r_team r; reg_status := r_status r;
                   reg_deleted_at := r_deleted_at r; reg_schema := c_schema c |})
      (List.filter (bound_to c) (registrations g)).

(** Modelled from the spec: the affected parties, the distinct consumer
    teams with an active, non-deleted registration against the asset's
    active contract, plus the producing team. *)
Definition affected_parties (g : Gov) (cur : option Contract) (producer : string)
  : list string :=
  match cur with
  | None => [producer]
  | Some c =>
      remove_dups
        (map r_team (List.filter (fun r => bound_to c r && reg_live r) (registrations g))
         ++ [producer])
  end.

Definition mk_event (action etype : string) (id : nat) (actor : Actor)
    (payload : list (string * string)) (changes : list Change) : Event :=
  {| e_action := action; e_entity_type := etype; e_entity_id := id;
     e_actor := actor; e_payload := payload; e_changes := changes |}.

Definition one_effect (ev : Event) (recipients : list string) : Effects :=
  {| fx_audit := [ev];
     fx_notify := [{| n_event := ev; n_recipients := recipients |}] |}.

(** *** The transitions of the governance state *)

Section Transitions.

(** The configured expiration window of a proposal. *)
Variable window : nat.

Definition new_contract (asset version : string) (schema : gmap string Field)
    (mode : Mode) (producer : string) : Contract :=
  {| c_asset := asset; c_version := version; c_schema := schema; c_mode := mode;
     c_status := active; c_published_by := producer |}.

Definition publish_activate (g : Gov) (asset version : string)
    (schema : gmap string Field) (mode : Mode) (producer : string)
    (cur : option Contract) : Result (PublishResult * Gov * Effects) :=
  let cid := length (contracts g) in
  let ev := mk_event "contract.published" "contract" cid (team_actor producer)
              [("asset_id", asset); ("version", version)] [] in
  Done (activated cid,
        set_contracts g (activate (contracts g)
                           (new_contract asset version schema mode producer)),
        one_effect ev (affected_parties g cur producer)).

Definition publish_propose (g : Gov) (asset version : string)
    (schema : gmap string Field) (mode : Mode) (producer : string)
    (cur : Contract) (changes : list Change) (now : nat)
  : Result (PublishResult * Gov * Effects) :=
  let pid := length (proposals g) in
  let parties := affected_parties g (Some cur) producer in
  let p := {| p_asset := asset; p_current := c_version cur; p_proposed := version;
              p_schema := schema; p_mode := mode; p_producer := producer;
              p_status := pending; p_created := now; p_expires := now + window;
              p_resolved_at := None; p_resolved_by := None;
              p_changes := changes; p_affected := parties |} in
  let ev := mk_event "proposal.created" "proposal" pid (team_actor producer)
              [("asset_id", asset); ("version", version)] changes in
  Done (proposal_created pid,
        set_proposals g (proposals g ++ [p]),
        one_effect ev parties).

(** Modelled from the spec: [publish].  A pending proposal for the asset
    is a conflict.  Otherwise the new schema is checked against the
    asset's active contract under that contract's compatibility mode and
    the registrations bound to it: compatible (or no active contract
    yet) activates the new version, breaking creates a proposal and
    activates nothing. *)
Definition publish_step (g : Gov) (asset version : string)
    (schema : gmap string Field) (mode : Mode) (producer : string) (now : nat)
  : Result (PublishResult * Gov * Effects) :=
  match pending_for asset 0 (proposals g) with
  | Some pid => Failed (ConflictError pid)
  | None =>
      match active_contract asset (contracts g) with
      | None => publish_activate g asset version schema mode producer None
      | Some cur =>
          match check (c_schema cur) schema (c_mode cur) (checker_regs g cur) with
          | compatible =>
              publish_activate g asset version schema mode producer (Some cur)
          | breaking changes =>
              publish_propose g asset version schema mode producer cur changes now
          end
      end
  end.

Definition resolution_status (a : Resolution) : ProposalStatus :=
  match a with
  | withdraw => withdrawn
  | reject => rejected
  | approve => published
  end.

Definition resolution_action (a : Resolution) : string :=
  match a with
  | withdraw => "proposal.withdrawn"
  | reject => "proposal.rejected"
  | approve => "proposal.published"
  end.

Definition resolved (p : Proposal) (st : ProposalStatus) (now : nat) (by_ : Actor)
  : Proposal :=
  {| p_asset := p_asset p; p_current := p_current p; p_proposed := p_proposed p;
     p_schema := p_schema p; p_mode := p_mode p; p_producer := p_producer p;
     p_status := st; p_created := p_created p; p_expires := p_expires p;
     p_resolved_at := Some now; p_resolved_by := Some by_;
     p_changes := p_changes p; p_affected := p_affected p |}.

Definition proposed_contract (p : Proposal) : Contract :=
  new_contract (p_asset p) (p_proposed p) (p_schema p) (p_mode p) (p_producer p).

(** Modelled from the spec: [resolve_proposal], the conditional update
    keyed on the proposal still being pending.  Approval activates the
    proposed contract; the parties notified are those computed when the
    proposal was created. *)
Definition resolve_step (g : Gov) (pid : nat) (a : Resolution) (actor : Actor)
    (now : nat) : Result (Proposal * Gov * Effects) :=
  match proposals g !! pid with
  | None => Failed NotFoundError
  | Some p =>
      match p_status p with
      | pending =>
          let p' := resolved p (resolution_status a) now actor in
          let g1 := set_proposals g (<[pid := p']> (proposals g)) in
          let g2 := match a with
                    | approve =>
                        set_contracts g1 (activate (contracts g1) (proposed_contract p))
                    | _ => g1
                    end in
          let ev := mk_event (resolution_action a) "proposal" pid actor
                      [("asset_id", p_asset p)] (p_changes p) in
          Done (p', g2, one_effect ev (p_affected p))
      | st => Failed (ProposalAlreadyResolved st)
      end
  end.

(** Modelled from the spec: [file_objection].  Objections are appended
    and leave the proposal's status alone. *)
Definition file_objection_step (g : Gov) (pid : nat) (team reason : string)
    (now : nat) : Result (Objection * Gov * Effects) :=
  match proposals g !! pid with
  | None => Failed NotFoundError
  | Some p =>
      match p_status p with
      | pending =>
          let o := {| o_proposal := pid; o_team := team; o_reason := reason;
                      o_time := now |} in
          let ev := mk_event "proposal.objection_filed" "proposal" pid
                      (team_actor team) [("reason", reason)] [] in
          Done (o, set_objections g (objections g ++ [o]),
                {| fx_audit := [ev]; fx_notify := [] |})
      | st => Failed (ProposalNotPending st)
      end
  end.

Definition due (now : nat) (p : Proposal) : bool :=
  is_pending p && (p_expires p <=? now).

Definition expire (now : nat) (p : Proposal) : Proposal :=
  if due now p then resolved p expired now system_actor else p.

Definition expiry_event (pid : nat) (p : Proposal) : Event :=
  mk_event "proposal.expired" "proposal" pid system_actor
    [("asset_id", p_asset p)] (p_changes p).

(** The effects of the sweep over the proposals from position [i] on. *)
Fixpoint sweep_effects (now i : nat) (ps : list Proposal) : list (Event * list string) :=
  match ps with
  | [] => []
  | p :: ps' =>
      (if due now p then [(expiry_event i p, p_affected p)] else [])
      ++ sweep_effects now (S i) ps'
  end.

(** Modelled from the spec: [sweep_expired], which expires every proposal
    that is still pending and past its expiration, and returns their
    number. *)
Definition sweep_step (g : Gov) (now : nat) : nat * Gov * Effects :=
  let evs := sweep_effects now 0 (proposals g) in
  (length (List.filter (due now) (proposals g)),
   set_proposals g (map (expire now) (proposals g)),
   {| fx_audit := map fst evs;
      fx_notify := map (fun er => {| n_event := fst er; n_recipients := snd er |}) evs |}).

(** Modelled from the spec: restoring a soft-deleted asset clears its
    deletion timestamp; the audit event is the one the test
    [test_restore_asset_creates_audit_event] looks for. *)
Definition restore_asset_step (g : Gov) (id : nat) (actor : Actor)
  : Result (AssetRow * Gov * Effects) :=
  match assets g !! id with
  | None => Failed NotFoundError
  | Some a =>
      match a_deleted_at a with
      | None => Failed NotFoundError
      | Some _ =>
          let a' := {| a_fqn := a_fqn a; a_owner := a_owner a; a_deleted_at := None |} in
          let ev := mk_event "asset.restored" "asset" id actor [("fqn", a_fqn a)] [] in
          Done (a', set_assets g (<[id := a']> (assets g)),
                {| fx_audit := [ev]; fx_notify := [] |})
      end
  end.

End Transitions.

(** *** The delivery dispatcher, the dead-letter sink and the audit sink *)

Inductive NetResult := net_ok | net_transient | net_permanent.

Section Api.

Variable window : nat.
(** Consecutive failures that open a breaker, the cooldown of an open
    breaker, and the ceiling on the attempts of one delivery. *)
Variable threshold cooldown max_attempts : nat.
(** The network: the outcome of an attempt at a destination, by time and
    attempt number. *)
Variable net : string -> nat -> nat -> NetResult.
(** The audit sink: whether it accepts an event or fails. *)
Variable sink_up : Event -> bool.

(** Attempts from number [i] on, at most [fuel] of them: a transient
    failure is retried, a permanent one is not. *)
Fixpoint attempt (fuel : nat) (dest : string) (now i : nat) : bool * nat :=
  match fuel with
  | O => (false, i)
  | S fuel' =>
      match net dest now i with
      | net_ok => (true, S i)
      | net_permanent => (false, S i)
      | net_transient => attempt fuel' dest now (S i)
      end
  end.

Definition breaker_of (d : Dispatch) (dest : string) : Breaker :=
  default {| b_state := closed; b_failures := 0; b_changed := 0 |}
          (breakers d !! dest).

(** An open breaker within its cooldown blocks delivery. *)
Definition blocked (b : Breaker) (now : nat) : bool :=
  match b_state b with
  | open => now <? b_changed b + cooldown
  | _ => false
  end.

(** After the cooldown (or when half-open) exactly one trial is allowed. *)
Definition is_trial (b : Breaker) : bool :=
  match b_state b with
  | closed => false
  | _ => true
  end.

Definition breaker_after (b : Breaker) (ok : bool) (now : nat) : Breaker :=
  if ok then
    {| b_state := closed; b_failures := 0;
       b_changed := if is_trial b then now else b_changed b |}
  else if is_trial b then
    {| b_state := open; b_failures := S (b_failures b); b_changed := now |}
  else if threshold <=? S (b_failures b) then
    {| b_state := open; b_failures := S (b_failures b); b_changed := now |}
  else
    {| b_state := closed; b_failures := S (b_failures b); b_changed := b_changed b |}.

(** Modelled from the spec: one delivery record for (event, destination),
    against the current breaker state.  An open breaker routes the event
    to the dead-letter sink without a network call. *)
Definition deliver (d : Dispatch) (ev : Event) (dest : string)
    (replay_of : option nat) (now : nat) : Dispatch :=
  let b := breaker_of d dest in
  if blocked b now then
    {| deliveries := deliveries d ++
         [{| d_event := ev; d_dest := dest; d_attempts := 0;
             d_status := dead_lettered; d_last_attempt := None;
             d_next_retry := None; d_replay_of := replay_of |}];
       breakers := breakers d |}
  else
    let res := attempt (if is_trial b then 1 else max_attempts) dest now 0 in
    {| deliveries := deliveries d ++
         [{| d_event := ev; d_dest := dest; d_attempts := snd res;
             d_status := if fst res then delivered else failed;
             d_last_attempt := Some now; d_next_retry := None;
             d_replay_of := replay_of |}];
       breakers := <[dest := breaker_after b (fst res) now]> (breakers d) |}.

(** Modelled from the spec: [dispatch(event)], one delivery per
    recipient, in order. *)
Definition dispatch (now : nat) (d : Dispatch) (n : Notification) : Dispatch :=
  fold_left (fun d dest => deliver d (n_event n) dest None now) (n_recipients n) d.

(** Modelled from the spec: the audit sink appends the event to the
    external log, or fails and drops it. *)
Definition emit (log : list Event) (ev : Event) : list Event :=
  if sink_up ev then log ++ [ev] else log.

(** Modelled from the spec: a transition commits its governance state;
    the audit events and the notifications are handed over afterwards,
    fire-and-forget, and their failures are not reported back. *)
Definition commit (s : State) (g : Gov) (fx : Effects) (now : nat) : State :=
  {| gov := g;
     disp := fold_left (dispatch now) (fx_notify fx) (disp s);
     audit_log := fold_left emit (fx_audit fx) (audit_log s) |}.

Definition run {A} (s : State) (r : Result (A * Gov * Effects)) (now : nat)
  : State * Result A :=
  match r with
  | Failed e => (s, Failed e)
  | Done (v, g, fx) => (commit s g fx now, Done v)
  end.

Definition publish (s : State) (asset version : string)
    (schema : gmap string Field) (mode : Mode) (producer : string) (now : nat)
  : State * Result PublishResult :=
  run s (publish_step window (gov s) asset version schema mode producer now) now.

Definition resolve_proposal (s : State) (pid : nat) (a : Resolution)
    (actor : Actor) (now : nat) : State * Result Proposal :=
  run s (resolve_step (gov s) pid a actor now) now.

Definition file_objection (s : State) (pid : nat) (team reason : string)
    (now : nat) : State * Result Objection :=
  run s (file_objection_step (gov s) pid team reason now) now.

Definition sweep_expired (s : State) (now : nat) : State * nat :=
  let '(n, g, fx) := sweep_step (gov s) now in
  (commit s g fx now, n).

Definition restore_asset (s : State) (id : nat) (actor : Actor) (now : nat)
  : State * Result AssetRow :=
  run s (restore_asset_step (gov s) id actor) now.

Definition replay_event (rid : nat) (actor : Actor) : Event :=
  mk_event "delivery.replayed" "delivery" rid actor [] [].

(** Modelled from the spec: [replay_dead_letter], a fresh delivery of the
    dead-lettered record's event against the current breaker state; the
    new record refers to the original, which is left as it is. *)
Definition replay_dead_letter (s : State) (rid : nat) (actor : Actor) (now : nat)
  : State * Result nat :=
  match deliveries (disp s) !! rid with
  | None => (s, Failed NotFoundError)
  | Some r =>
      match d_status r with
      | dead_lettered =>
          let s1 := commit s (gov s)
                      {| fx_audit := [replay_event rid actor]; fx_notify := [] |} now in
          ({| gov := gov s1;
              disp := deliver (disp s1) (d_event r) (d_dest r) (Some rid) now;
              audit_log := audit_log s1 |},
           Done (length (deliveries (disp s))))
      | st => (s, Failed (NotDeadLettered st))
      end
  end.

(** *** Operations of the collaborators (registration, soft delete)

    Modelled from the spec: registrations and assets are created and
    removed by collaborators of the engine, whose code is not among the
    sources either; they are modelled as far as the engine reads their
    state, each with its audit event. *)

Definition register_step (g : Gov) (asset version team : string)
  : Result (nat * Gov * Effects) :=
  let rid := length (registrations g) in
  Done (rid,
        set_registrations g
          (registrations g ++
           [{| r_asset := asset; r_version := version; r_team := team;
               r_status := reg_active; r_deleted_at := None |}]),
        {| fx_audit := [mk_event "registration.created" "registration" rid
                          (team_actor team) [("asset_id", asset); ("version", version)] []];
           fx_notify := [] |}).

Definition cancel_registration_step (g : Gov) (i : nat) (actor : Actor) (now : nat)
  : Result (Reg * Gov * Effects) :=
  match registrations g !! i with
  | None => Failed NotFoundError
  | Some r =>
      let r' := {| r_asset := r_asset r; r_version := r_version r;
                   r_team := r_team r; r_status := reg_cancelled;
                   r_deleted_at := Some now |} in
      Done (r', set_registrations g (<[i := r']> (registrations g)),
            {| fx_audit := [mk_event "registration.cancelled" "registration" i actor
                              [("asset_id", r_asset r)] []];
               fx_notify := [] |})
  end.

Definition create_asset_step (g : Gov) (fqn owner : string)
  : Result (nat * Gov * Effects) :=
  let id := length (assets g) in
  Done (id,
        set_assets g (assets g ++
                      [{| a_fqn := fqn; a_owner := owner; a_deleted_at := None |}]),
        {| fx_audit := [mk_event "asset.created" "asset" id (team_actor owner)
                          [("fqn", fqn)] []];
           fx_notify := [] |}).

Definition delete_asset_step (g : Gov) (id : nat) (actor : Actor) (now : nat)
  : Result (AssetRow * Gov * Effects) :=
  match assets g !! id with
  | None => Failed NotFoundError
  | Some a =>
      match a_deleted_at a with
      | Some _ => Failed NotFoundError
      | None =>
          let a' := {| a_fqn := a_fqn a; a_owner := a_owner a;
                       a_deleted_at := Some now |} in
          Done (a', set_assets g (<[id := a']> (assets g)),
                {| fx_audit := [mk_event "asset.deleted" "asset" id actor
                                  [("fqn", a_fqn a)] []];
                   fx_notify := [] |})
      end
  end.

Definition register (s : State) (asset version team : string) (now : nat)
  : State * Result nat :=
  run s (register_step (gov s) asset version team) now.

Definition cancel_registration (s : State) (i : nat) (actor : Actor) (now : nat)
  : State * Result Reg :=
  run s (cancel_registration_step (gov s) i actor now) now.

Definition create_asset (s : State) (fqn owner : string) (now : nat)
  : State * Result nat :=
  run s (create_asset_step (gov s) fqn owner) now.

Definition delete_asset (s : State) (id : nat) (actor : Actor) (now : nat)
  : State * Result AssetRow :=
  run s (delete_asset_step (gov s) id actor now) now.

(** *** Reachable states *)

Inductive Op :=
| op_publish (asset version : string) (schema : gmap string Field) (mode : Mode)
    (producer : string) (now : nat)
| op_resolve (pid : nat) (a : Resolution) (actor : Actor) (now : nat)
| op_objection (pid : nat) (team reason : string) (now : nat)
| op_sweep (now : nat)
| op_replay (rid : nat) (actor : Actor) (now : nat)
| op_restore (id : nat) (actor : Actor) (now : nat)
| op_register (asset version team : string) (now : nat)
| op_cancel (i : nat) (actor : Actor) (now : nat)
| op_create_asset (fqn owner : string) (now : nat)
| op_delete_asset (id : nat) (actor : Actor) (now : nat).

(** The committed state after an operation (the state is unchanged when
    the operation fails). *)
Definition run_op (s : State) (o : Op) : State :=
  match o with
  | op_publish asset version schema mode producer now =>
      fst (publish s asset version schema mode producer now)
  | op_resolve pid a actor now => fst (resolve_proposal s pid a actor now)
  | op_objection pid team reason now => fst (file_objection s pid team reason now)
  | op_sweep now => fst (sweep_expired s now)
  | op_replay rid actor now => fst (replay_dead_letter s rid actor now)
  | op_restore id actor now => fst (restore_asset s id actor now)
  | op_register asset version team now => fst (register s asset version team now)
  | op_cancel i actor now => fst (cancel_registration s i actor now)
  | op_create_asset fqn owner now => fst (create_asset s fqn owner now)
  | op_delete_asset id actor now => fst (delete_asset s id actor now)
  end.

Inductive reachable : State -> Prop :=
| reach_init : reachable init
| reach_step s o : reachable s -> reachable (run_op s o).

End Api.

(** *** The step relation and the invariants *)

(** What one operation does to the contracts and the proposals. *)
Inductive gov_step (g g' : Gov) : Prop :=
| gs_same :
    contracts g' = contracts g -> proposals g' = proposals g -> gov_step g g'
| gs_activate new :
    contracts g' = activate (contracts g) new ->
    proposals g' = proposals g -> gov_step g g'
| gs_propose p0 :
    p_status p0 = pending ->
    proposals g' = proposals g ++ [p0] ->
    contracts g' = contracts g -> gov_step g g'
| gs_resolve pid p a now actor :
    proposals g !! pid = Some p -> p_status p = pending ->
    proposals g' = <[pid := resolved p (resolution_status a) now actor]> (proposals g) ->
    contracts g' = match a with
                   | approve => activate (contracts g) (proposed_contract p)
                   | _ => contracts g
                   end ->
    gov_step g g'
| gs_sweep now :
    proposals g' = map (expire now) (proposals g) ->
    contracts g' = contracts g -> gov_step g g'.

(** Each asset has no or one active contract. *)
Definition one_active (g : Gov) : Prop :=
  forall asset, count_active asset (contracts g) <= 1.

Definition became_active (c : Contract) : Prop :=
  c_status c = active \/ c_status c = superseded.

Definition target_of (p : Proposal) (c : Contract) : Prop :=
  c_asset c = p_asset p /\ c_version c = p_proposed p /\ became_active c.

(** Every proposal that left [pending] has a resolution time and a
    resolving actor, and the target contract of a published proposal has
    become active. *)
Definition terminal_ok (g : Gov) : Prop :=
  forall pid p, proposals g !! pid = Some p ->
    (p_status p <> pending ->
       (exists t, p_resolved_at p = Some t) /\ (exists a, p_resolved_by p = Some a))
    /\ (p_status p = published -> exists c, In c (contracts g) /\ target_of p c).



End Engine.

(** ** The scenario of the specification: asset [orders] *)

Module Scenario.

Import Checker Engine.
Local Open Scope string_scope.
Local Open Scope list_scope.
Local Open Scope nat_scope.

(** An environment: thirty days of expiration window, a breaker that
    opens after five failures, a network that delivers and an audit sink
    that accepts. *)
Definition window := 30.
Definition threshold := 5.
Definition cooldown := 60.
Definition max_attempts := 3.
Definition net (dest : string) (now i : nat) : NetResult := net_ok.
Definition sink_up (ev : Event) : bool := true.
(** An audit sink that fails on every event. *)
Definition sink_down (ev : Event) : bool := false.

Definition step := Engine.run_op window threshold cooldown max_attempts net sink_up.

Definition v1 : gmap string Field := {[ "id" := int_field true ]}.
Definition v2 : gmap string Field := {[ "new_id" := str_field true ]}.

(** Version 1 is published and team-B registers. *)
Definition s1 : State := step init (op_publish "orders" "1.0.0" v1 backward "team-A" 0).
Definition s2 : State := step s1 (op_register "orders" "1.0.0" "team-B" 1).
(** Version 2 removes [id]: a proposal; the producer then approves it. *)
Definition s3 : State := step s2 (op_publish "orders" "2.0.0" v2 backward "team-A" 2).
Definition s4 : State := step s3 (op_resolve 0 approve (team_actor "team-A") 3).


Definition contract_v1 : Contract :=
  {| c_asset := "orders"; c_version := "1.0.0"; c_schema := v1; c_mode := backward;
     c_status := active; c_published_by := "team-A" |}.

Definition registration_b : Reg :=
  {| r_asset := "orders"; r_version := "1.0.0"; r_team := "team-B";
     r_status := reg_active; r_deleted_at := None |}.

End Scenario.

(** * Properties *)

(** ** Strings *)

Section StringFacts.

Import PyStr.

Lemma lstrip_no_lead s : no_lead (lstrip s).
Proof.
  induction s as [|c s IH]; simpl; [exact I|].
  destruct (is_space c) eqn:E; [exact IH|]. simpl. exact E.
Qed.

Lemma lstrip_id s : no_lead s -> lstrip s = s.
Proof. destruct s as [|c s]; simpl; [reflexivity|]. intros ->. reflexivity. Qed.

Lemma lstrip_idem s : lstrip (lstrip s) = lstrip s.
Proof. apply lstrip_id, lstrip_no_lead. Qed.

Lemma lstrip_spaces s : Forall (fun c => is_space c = true) s -> lstrip s = [].
Proof. induction 1 as [|c s Hc _ IH]; simpl; [reflexivity|]. rewrite Hc. exact IH. Qed.

Lemma no_lead_app_l s t : s <> [] -> no_lead (s ++ t) -> no_lead s.
Proof. destruct s; [congruence|]. simpl. auto. Qed.

Lemma no_lead_app_r s t : s <> [] -> no_lead s -> no_lead (s ++ t).
Proof. destruct s; [congruence|]. simpl. auto. Qed.

Lemma rstrip_no_lead s : no_lead s -> no_lead (rstrip s).
Proof.
  unfold rstrip. induction s as [|c s IH] using rev_ind; [intros; exact I|].
  intros H. rewrite rev_unit. simpl.
  destruct (is_space c) eqn:E.
  - destruct s as [|d s]; [exact I|].
    apply IH. eapply no_lead_app_l; [|exact H]. discriminate.
  - change (c :: rev s) with (rev [c] ++ rev s).
    rewrite <- rev_app_distr, rev_involutive. exact H.
Qed.

Lemma rstrip_no_trail s : no_trail (rstrip s).
Proof. unfold no_trail, rstrip. rewrite rev_involutive. apply lstrip_no_lead. Qed.

Lemma rstrip_id s : no_trail s -> rstrip s = s.
Proof. unfold no_trail, rstrip. intros H. rewrite lstrip_id by exact H. apply rev_involutive. Qed.

Lemma strip_no_lead s : no_lead (strip s).
Proof. apply rstrip_no_lead, lstrip_no_lead. Qed.

Lemma strip_no_trail s : no_trail (strip s).
Proof. apply rstrip_no_trail. Qed.

Lemma strip_id s : no_lead s -> no_trail s -> strip s = s.
Proof. intros H1 H2. unfold strip. rewrite lstrip_id by exact H1. apply rstrip_id, H2. Qed.

Lemma strip_idem s : strip (strip s) = strip s.
Proof. apply strip_id; [apply strip_no_lead | apply strip_no_trail]. Qed.

Lemma lstrip_incl s c : In c (lstrip s) -> In c s.
Proof.
  induction s as [|d s IH]; simpl; [tauto|].
  destruct (is_space d); simpl; tauto.
Qed.

Lemma strip_incl s c : In c (strip s) -> In c s.
Proof.
  unfold strip, rstrip. rewrite <- in_rev. intros H.
  apply lstrip_incl in H. rewrite <- in_rev in H. apply lstrip_incl, H.
Qed.

Lemma strip_spaces s : Forall (fun c => is_space c = true) s -> strip s = [].
Proof. intros H. unfold strip. rewrite lstrip_spaces by exact H. reflexivity. Qed.

(** [strip] removes whitespace, and only whitespace, from the two ends. *)
Lemma lstrip_split w : exists l, w = l ++ lstrip w /\ blank l.
Proof.
  induction w as [|c w (l & E & Hl)]; [exists []; split; [reflexivity|constructor]|].
  simpl. destruct (is_space c) eqn:Hc.
  - exists (c :: l). split; [simpl; f_equal; exact E|]. constructor; assumption.
  - exists []. split; [reflexivity|constructor].
Qed.

Lemma blank_rev l : blank l -> blank (rev l).
Proof. unfold blank. intros H. apply List.Forall_rev, H. Qed.

Lemma rstrip_split w : exists r, w = rstrip w ++ r /\ blank r.
Proof.
  unfold rstrip. destruct (lstrip_split (rev w)) as (l & E & Hl).
  exists (rev l). split; [|apply blank_rev, Hl].
  rewrite <- rev_app_distr, <- E, rev_involutive. reflexivity.
Qed.

Lemma strip_split w :
  exists l r, w = l ++ strip w ++ r /\ blank l /\ blank r.
Proof.
  destruct (lstrip_split w) as (l & E1 & Hl).
  destruct (rstrip_split (lstrip w)) as (r & E2 & Hr).
  exists l, r. split; [|split; assumption].
  unfold strip. rewrite <- E2. exact E1.
Qed.

Lemma lstrip_app_blank l x : blank l -> lstrip (l ++ x) = lstrip x.
Proof. induction 1 as [|c l Hc _ IH]; simpl; [reflexivity|]. rewrite Hc. exact IH. Qed.

(** The decomposition determines the stripped text. *)
Lemma stripped_of_strip w e : stripped_of w e -> strip w = e.
Proof.
  intros (l & r & -> & Hl & Hr & Hne & Hlead & Htrail).
  unfold strip. rewrite lstrip_app_blank by exact Hl.
  rewrite lstrip_id by (apply no_lead_app_r; assumption).
  unfold rstrip. rewrite rev_app_distr.
  rewrite lstrip_app_blank by (apply blank_rev, Hr).
  rewrite lstrip_id by exact Htrail. apply rev_involutive.
Qed.

Lemma strip_stripped_of w : strip w <> [] -> stripped_of w (strip w).
Proof.
  intros Hne. destruct (strip_split w) as (l & r & E & Hl & Hr).
  exists l, r. split; [exact E|]. split; [exact Hl|]. split; [exact Hr|].
  split; [exact Hne|]. split; [apply strip_no_lead|apply strip_no_trail].
Qed.

Lemma strip_nil_blank w : strip w = [] -> blank w.
Proof.
  intros E. destruct (strip_split w) as (l & r & Ew & Hl & Hr).
  rewrite E in Ew. rewrite Ew. simpl. apply List.Forall_app. split; assumption.
Qed.

Lemma split_nonempty sep s : split sep s <> [].
Proof.
  destruct s as [|c s]; simpl; [discriminate|].
  destruct (c =? sep)%N; [discriminate|]. destruct (split sep s); discriminate.
Qed.

(** No piece of a split contains the separator. *)
Lemma split_no_sep sep s w : In w (split sep s) -> ~ In sep w.
Proof.
  revert w. induction s as [|c s IH]; simpl; intros w.
  - intros [<-|[]]. simpl. tauto.
  - destruct (N.eqb_spec c sep) as [->|Hne].
    + intros [<-|H]; [simpl; tauto|]. apply IH, H.
    + destruct (split sep s) as [|w0 ws] eqn:E.
      * intros [<-|[]]. simpl. intros [->|[]]. congruence.
      * intros [<-|H].
        -- simpl. intros [->|H0]; [congruence|]. apply (IH w0); [left; reflexivity|exact H0].
        -- apply IH. right. exact H.
Qed.

(** The characters of the pieces are characters of the string. *)
Lemma split_chars sep s w c : In w (split sep s) -> In c w -> In c s.
Proof.
  revert w. induction s as [|d s IH]; simpl; intros w.
  - intros [<-|[]]. simpl. tauto.
  - destruct (d =? sep)%N.
    + intros [<-|H]; [simpl; tauto|]. intros Hc. right. eapply IH; eauto.
    + destruct (split sep s) as [|w0 ws] eqn:E.
      * intros [<-|[]]. simpl. tauto.
      * intros [<-|H].
        -- simpl. intros [->|H0]; [left; reflexivity|]. right.
           apply (IH w0); [left; reflexivity|exact H0].
        -- intros Hc. right. apply (IH w); [right; exact H|exact Hc].
Qed.

(** Joining the pieces of a split gives the string back. *)
Lemma join_split sep s : join [sep] (split sep s) = s.
Proof.
  induction s as [|c s IH]; simpl; [reflexivity|].
  destruct (N.eqb_spec c sep) as [->|Hne].
  - pose proof (split_nonempty sep s) as Hn.
    destruct (split sep s) as [|w ws]; [congruence|].
    change (join [sep] ([] :: w :: ws)) with ([] ++ [sep] ++ join [sep] (w :: ws)).
    rewrite IH. reflexivity.
  - destruct (split sep s) as [|w ws] eqn:E.
    + exfalso. eapply split_nonempty, E.
    + rewrite <- IH. destruct ws; reflexivity.
Qed.

Lemma split_without_sep sep w : ~ In sep w -> split sep w = [w].
Proof.
  induction w as [|c w IH]; [reflexivity|].
  intros H. simpl. destruct (N.eqb_spec c sep) as [->|_].
  - exfalso. apply H. left. reflexivity.
  - rewrite IH; [reflexivity|]. intros Hin. apply H. right. exact Hin.
Qed.

Lemma split_app_sep sep p rest :
  ~ In sep p -> split sep (p ++ sep :: rest) = p :: split sep rest.
Proof.
  induction p as [|c p IH]; intros H.
  - simpl. rewrite N.eqb_refl. reflexivity.
  - simpl. destruct (N.eqb_spec c sep) as [->|_].
    + exfalso. apply H. left. reflexivity.
    + rewrite IH; [reflexivity|]. intros Hin. apply H. right. exact Hin.
Qed.

(** Splitting what was joined gives the pieces back, when no piece holds
    the separator. *)
Lemma split_join sep l :
  l <> [] -> Forall (fun w => ~ In sep w) l -> split sep (join [sep] l) = l.
Proof.
  intros Hne Hl. induction Hl as [|w l Hw Hl IH]; [congruence|].
  destruct l as [|w2 l].
  - simpl. apply split_without_sep, Hw.
  - change (join [sep] (w :: w2 :: l)) with (w ++ sep :: join [sep] (w2 :: l)).
    rewrite (split_app_sep _ _ _ Hw). f_equal. apply IH. discriminate.
Qed.

Lemma truthy_nonempty (s : pystr) : truthy s = true <-> s <> [].
Proof. destruct s; simpl; split; congruence. Qed.

(** A comprehension that strips and keeps the non-empty results is the
    filter of the stripped entries. *)
Lemma map_strip_filter (l : list pystr) :
  map (fun d => strip d) (List.filter (fun d => truthy (strip d)) l)
  = List.filter truthy (map strip l).
Proof.
  induction l as [|d l IH]; simpl; [reflexivity|].
  destruct (truthy (strip d)); simpl; rewrite IH; reflexivity.
Qed.

End StringFacts.

(** ** Configuration *)

Section ConfigFacts.

Import PyStr Config.

Lemma parse_domains_blank s :
  Forall (fun c => is_space c = true \/ c = comma) s ->
  parse_webhook_allowed_domains (RawStr s) = [].
Proof.
  intros H. simpl. rewrite map_strip_filter.
  assert (Hall : forall w, In w (split comma s) -> strip w = []).
  { intros w Hw. apply strip_spaces. apply List.Forall_forall. intros c Hc.
    rewrite List.Forall_forall in H.
    destruct (H c (split_chars _ _ _ _ Hw Hc)) as [Hs| ->]; [exact Hs|].
    exfalso. exact (split_no_sep _ _ _ Hw Hc). }
  induction (split comma s) as [|w ws IH]; simpl; [reflexivity|].
  rewrite (Hall w) by (left; reflexivity). simpl.
  apply IH. intros w' Hw'. apply Hall. right. exact Hw'.
Qed.

(** The comprehension keeps of a list of pieces what [kept_entries]
    says, and nothing else. *)
Lemma comprehension_kept (ws : list pystr) :
  kept_entries ws (map (fun d => strip d) (List.filter (fun d => truthy (strip d)) ws)).
Proof.
  induction ws as [|w ws IH]; cbn [List.filter map]; [constructor|].
  destruct (truthy (strip w)) eqn:T; cbn [map].
  - apply kept_keep; [|exact IH]. apply strip_stripped_of, truthy_nonempty, T.
  - apply kept_skip; [|exact IH]. apply strip_nil_blank.
    destruct (strip w); [reflexivity|discriminate T].
Qed.

Lemma kept_comprehension (ws es : list pystr) :
  kept_entries ws es ->
  map (fun d => strip d) (List.filter (fun d => truthy (strip d)) ws) = es.
Proof.
  induction 1 as [|w ws es Hw _ IH|w e ws es Hw _ IH]; cbn [List.filter map].
  - reflexivity.
  - rewrite (strip_spaces w Hw). exact IH.
  - pose proof (stripped_of_strip w e Hw) as E.
    destruct Hw as (_ & _ & _ & _ & _ & Hne & _).
    rewrite E. destruct e; [congruence|]. cbn [truthy map]. rewrite E, IH. reflexivity.
Qed.

(** The comprehension over the pieces of a comma-separated string. *)
Lemma comprehension_join_kept (pieces es : list pystr) :
  pieces <> [] -> Forall (fun w => ~ In comma w) pieces ->
  kept_entries pieces es
  <-> map (fun d => strip d)
        (List.filter (fun d => truthy (strip d)) (split comma (join [comma] pieces))) = es.
Proof.
  intros Hne Hfree. rewrite (split_join comma pieces Hne Hfree). split.
  - apply kept_comprehension.
  - intros <-. apply comprehension_kept.
Qed.

Lemma kept_nil_blank (ws : list pystr) : kept_entries ws [] -> Forall blank ws.
Proof.
  induction ws as [|w ws IH]; [constructor|].
  intros H. inversion H; subst. constructor; [assumption|]. apply IH. assumption.
Qed.

Lemma join_blank_chars (ws : list pystr) :
  Forall blank ws ->
  Forall (fun c => is_space c = true \/ c = comma) (join [comma] ws).
Proof.
  induction 1 as [|w ws Hw Hws IH]; [constructor|].
  assert (Hw' : Forall (fun c => is_space c = true \/ c = comma) w).
  { eapply List.Forall_impl; [|exact Hw]. simpl. tauto. }
  destruct ws as [|w2 ws]; [exact Hw'|].
  change (join [comma] (w :: w2 :: ws)) with (w ++ comma :: join [comma] (w2 :: ws)).
  apply List.Forall_app. split; [exact Hw'|]. constructor; [right; reflexivity|exact IH].
Qed.

(** Only a string of whitespace and commas gives the empty list. *)
Lemma comprehension_nil_blank (s : pystr) :
  map (fun d => strip d) (List.filter (fun d => truthy (strip d)) (split comma s)) = [] ->
  Forall (fun c => is_space c = true \/ c = comma) s.
Proof.
  intros E. pose proof (comprehension_kept (split comma s)) as K. rewrite E in K.
  rewrite <- (join_split comma s). apply join_blank_chars, kept_nil_blank, K.
Qed.

(** The empty list is the only allow-list that allows every domain
    under every matching rule. *)
Lemma domain_allowed_all (allowed : list pystr) :
  (forall matches domain, domain_allowed matches allowed domain = true)
  <-> allowed = [].
Proof.
  split; [|intros ->; reflexivity].
  intros H. destruct allowed as [|e l]; [reflexivity|].
  specialize (H (fun _ _ => false) []). cbn [domain_allowed] in H.
  assert (E : forall l' : list pystr, existsb (fun _ => false) l' = false)
    by (induction l' as [|? ? IH]; [reflexivity|exact IH]).
  rewrite E in H. discriminate H.
Qed.

(** Every string is the join of its comma-free pieces. *)
Lemma comma_pieces (s : pystr) :
  exists pieces,
    pieces <> [] /\ Forall (fun w => ~ In comma w) pieces /\ s = join [comma] pieces.
Proof.
  exists (split comma s). split; [apply split_nonempty|].
  split; [|symmetry; apply join_split].
  apply List.Forall_forall. intros w Hw. exact (split_no_sep _ _ _ Hw).
Qed.

(** C7. An empty allow-list allows every domain.  A comma-separated
    string is parsed into exactly its non-empty whitespace-stripped
    entries.  Every string is the join of comma-free pieces, and for
    every such writing the result is what [kept_entries] keeps of the
    pieces, and nothing else: a piece of whitespace only gives no entry;
    every other piece gives, in its place, its text between the
    whitespace around it, where [strip] removes whitespace and nothing
    but whitespace.  So each parsed entry is non-empty, has no
    whitespace at either end and holds no comma.  A string of whitespace
    (and commas) only, the empty string among them, parses to the empty
    list and so allows every domain; no other string parses to the
    empty list, and none but these allows every domain whatever the
    matching rule.  A list value is kept unchanged. *)
Theorem parse_webhook_allowed_domains_spec :
  (forall matches domain, domain_allowed matches [] domain = true)
  /\ (forall s,
        parse_webhook_allowed_domains (RawStr s)
        = List.filter truthy (map strip (split comma s))
        /\ join [comma] (split comma s) = s
        /\ (forall e, In e (parse_webhook_allowed_domains (RawStr s)) ->
              e <> [] /\ strip e = e /\ no_lead e /\ no_trail e /\ ~ In comma e))
  /\ (forall s, exists pieces,
        pieces <> [] /\ Forall (fun w => ~ In comma w) pieces
        /\ s = join [comma] pieces)
  /\ (forall pieces es,
        pieces <> [] -> Forall (fun w => ~ In comma w) pieces ->
        kept_entries pieces es
        <-> parse_webhook_allowed_domains (RawStr (join [comma] pieces)) = es)
  /\ (forall w, exists l r, w = l ++ strip w ++ r /\ blank l /\ blank r)
  /\ parse_webhook_allowed_domains (RawStr []) = []
  /\ (forall s matches domain,
        Forall (fun c => is_space c = true) s ->
        parse_webhook_allowed_domains (RawStr s) = []
        /\ domain_allowed matches (parse_webhook_allowed_domains (RawStr s)) domain = true)
  /\ (forall s, Forall (fun c => is_space c = true \/ c = comma) s <->
        parse_webhook_allowed_domains (RawStr s) = [])
  /\ (forall s, Forall (fun c => is_space c = true \/ c = comma) s <->
        (forall matches domain,
            domain_allowed matches (parse_webhook_allowed_domains (RawStr s)) domain
            = true))
  /\ (forall l, parse_webhook_allowed_domains (RawSeq l) = l).
Proof.
  split; [reflexivity|].
  split.
  { intros s. split; [apply map_strip_filter|]. split; [apply join_split|].
    intros e He. simpl in He. rewrite map_strip_filter in He.
    apply List.filter_In in He. destruct He as [He Ht].
    apply List.in_map_iff in He. destruct He as (w & <- & Hw).
    split; [apply truthy_nonempty, Ht|].
    split; [apply strip_idem|].
    split; [apply strip_no_lead|].
    split; [apply strip_no_trail|].
    intros Hc. apply strip_incl in Hc. exact (split_no_sep _ _ _ Hw Hc). }
  split; [apply comma_pieces|].
  split; [intros pieces es; apply comprehension_join_kept|].
  split; [apply strip_split|].
  split; [reflexivity|].
  split.
  { intros s matches domain Hs.
    assert (E : parse_webhook_allowed_domains (RawStr s) = []).
    { apply parse_domains_blank. eapply List.Forall_impl; [|exact Hs]. simpl. tauto. }
    rewrite E. split; reflexivity. }
  assert (Hnil : forall s, Forall (fun c => is_space c = true \/ c = comma) s <->
                   parse_webhook_allowed_domains (RawStr s) = []).
  { intros s; split; [apply parse_domains_blank|apply comprehension_nil_blank]. }
  split; [exact Hnil|].
  split; [intros s; rewrite Hnil; symmetry; apply domain_allowed_all|].
  reflexivity.
Qed.

(** The scenario of the field's description: a comma-separated value
    with blanks and empty entries.  The second and the last piece give
    no entry, the two others their text. *)
Lemma parse_webhook_allowed_domains_kept :
  kept_entries
    [str_of " a.example "; str_of " "; str_of "b.example"; []]
    [str_of "a.example"; str_of "b.example"]
  /\ parse_webhook_allowed_domains (RawStr (str_of " a.example , ,b.example,"))
     = [str_of "a.example"; str_of "b.example"].
Proof.
  assert (K : kept_entries
                [str_of " a.example "; str_of " "; str_of "b.example"; []]
                [str_of "a.example"; str_of "b.example"]).
  { apply kept_keep.
    { exists [32%N], [32%N]. repeat split; try discriminate; repeat constructor. }
    apply kept_skip; [repeat constructor|].
    apply kept_keep.
    { exists [], []. repeat split; try discriminate; repeat constructor. }
    apply kept_skip; constructor. }
  split; [exact K|].
  destruct parse_webhook_allowed_domains_spec as (_ & _ & _ & H & _).
  apply (H [str_of " a.example "; str_of " "; str_of "b.example"; []]).
  - discriminate.
  - repeat constructor; vm_compute; intuition discriminate.
  - exact K.
Defined.

Example parse_domains_example :
  parse_webhook_allowed_domains (RawStr (str_of " a.example , ,b.example,"))
  = [str_of "a.example"; str_of "b.example"].
Proof. reflexivity. Qed.

Lemma production_errors_nil self :
  production_errors self = [] <->
  auto_create_tables self = false /\ auth_disabled self = false
  /\ rate_limit_enabled self = true.
Proof.
  unfold production_errors.
  destruct (auto_create_tables self), (auth_disabled self), (rate_limit_enabled self);
    simpl; split; intros H; try discriminate; try tauto;
    destruct H as (? & ? & ?); discriminate.
Qed.

(** C8. [validate_production_config] raises a [ValueError] exactly when
    the environment is neither [development] nor [test] and the session
    secret is the built-in default, or the environment is [production]
    and [auto_create_tables] is true, [auth_disabled] is true or
    [rate_limit_enabled] is false; in every other case it returns the
    settings unchanged. *)
Theorem validate_production_config_spec (self : Settings) :
  ((exists msg, validate_production_config self = Raise (ValueError msg))
   <-> bad_secret self \/ bad_production self)
  /\ (validate_production_config self = Ok self
      <-> ~ (bad_secret self \/ bad_production self)).
Proof.
  assert (Hdev : str_of "production" <> str_of "development") by (vm_compute; discriminate).
  assert (Htest : str_of "production" <> str_of "test") by (vm_compute; discriminate).
  unfold validate_production_config, bad_secret, bad_production, str_eqb.
  repeat case_bool_decide; simpl;
    try (destruct (production_errors self) eqn:E; simpl;
         [apply production_errors_nil in E
         | assert (E' : ~ production_errors self = []) by (rewrite E; discriminate);
           rewrite production_errors_nil in E']);
    (split; split;
      [ try (intros [msg Hm]; discriminate Hm); intros _
      | try (intros _; eexists; reflexivity); intros ?
      | try (intros Hm; discriminate Hm); intros _
      | try (intros _; reflexivity); intros ? ]);
    try solve [ tauto | congruence | intuition congruence
              | destruct (auto_create_tables self), (auth_disabled self),
                  (rate_limit_enabled self); intuition congruence ].
Qed.

End ConfigFacts.

(** ** Logging *)

Section ConfigureFacts.

Import PyStr Logging.

(** C9. After [configure_logging(level, fmt)] the root logger has exactly
    one handler, whatever handlers were installed before and whether or
    not the level name was accepted; its formatter is a [JSONFormatter]
    exactly when [fmt] is [json]; and a further call with the same format
    leaves a handler list of the same configuration. *)
Theorem configure_logging_single_handler
    (upper : pystr -> pystr) (level fmt : pystr) (st : LogState) :
  let st' := fst (configure_logging upper level fmt st) in
  length (root_handlers st') = 1%nat
  /\ (exists h, root_handlers st' = [h]
        /\ h_stream h = Stderr
        /\ (h_formatter h = Some JSONFormatter <-> fmt = str_of "json"))
  /\ (forall level2,
        let st'' := fst (configure_logging upper level2 fmt st') in
        length (root_handlers st'') = 1%nat
        /\ map handler_config (root_handlers st'')
           = map handler_config (root_handlers st')).
Proof.
  assert (Hh : forall s, root_handlers (fst (configure_logging upper level fmt s))
                         = [new_handler fmt s]).
  { intros s. unfold configure_logging.
    destruct (nameToLevel (upper level)); reflexivity. }
  assert (Hh2 : forall level2 s,
             root_handlers (fst (configure_logging upper level2 fmt s))
             = [new_handler fmt s]).
  { intros level2 s. unfold configure_logging.
    destruct (nameToLevel (upper level2)); reflexivity. }
  simpl. rewrite Hh. split; [reflexivity|]. split.
  - exists (new_handler fmt st). split; [reflexivity|]. split; [reflexivity|].
    unfold new_handler, str_eqb; simpl. case_bool_decide; split; intros E;
      try assumption; try reflexivity; try congruence.
  - intros level2. rewrite Hh2. split; reflexivity.
Qed.

(** The test [test_clears_existing_handlers]: two handlers installed
    before the call, one after it. *)
Example configure_logging_clears :
  let before :=
    {| root_handlers :=
         addHandler (addHandler [] {| h_id := 0; h_stream := Stderr; h_formatter := None |})
                    {| h_id := 1; h_stream := Stderr; h_formatter := None |};
       root_level := WARNING; named_level := ∅; next_id := 2 |} in
  length (root_handlers before) = 2%nat
  /\ length (root_handlers
               (fst (configure_logging (fun s => s) (str_of "INFO") (str_of "text") before)))
     = 1%nat.
Proof. split; reflexivity. Qed.

End ConfigureFacts.

(** ** JSON *)

Section JsonFacts.

Import PyStr Json.

Lemma body_app a b : body a -> body b -> body (a ++ b).
Proof.
  induction 1; intros Hb; simpl; [exact Hb| | |].
  - apply body_plain; auto.
  - eapply body_short; eauto.
  - eapply body_u; eauto.
Qed.

Lemma hexdigit_printable d : d < 16 -> printable (hexdigit d) = true.
Proof.
  intros H. unfold hexdigit, printable.
  destruct (N.ltb_spec d 10); apply andb_true_intro; split; apply N.leb_le; lia.
Qed.

Lemma hexval_hexdigit d : d < 16 -> hexval (hexdigit d) = Some d.
Proof.
  intros H. unfold hexdigit, hexval.
  destruct (N.ltb_spec d 10).
  - replace ((48 <=? 48 + d) && (48 + d <=? 57)) with true
      by (symmetry; apply andb_true_intro; split; apply N.leb_le; lia).
    f_equal. lia.
  - replace ((48 <=? 87 + d) && (87 + d <=? 57)) with false
      by (symmetry; apply andb_false_intro2; apply N.leb_gt; lia).
    replace ((97 <=? 87 + d) && (87 + d <=? 102)) with true
      by (symmetry; apply andb_true_intro; split; apply N.leb_le; lia).
    f_equal. lia.
Qed.

Lemma mod16_lt n : n mod 16 < 16.
Proof. apply N.mod_lt. discriminate. Qed.

Lemma hex4_decodes n :
  exists u, match hex4 n with
            | [a; b; c; d] => decode_hex4 a b c d = Some u
            | _ => False
            end.
Proof.
  unfold hex4, decode_hex4.
  rewrite !hexval_hexdigit by apply mod16_lt. eexists. reflexivity.
Qed.

Lemma hex4_printable n : Forall (fun c => printable c = true) (hex4 n).
Proof.
  unfold hex4. repeat constructor; apply hexdigit_printable, mod16_lt.
Qed.

Lemma body_hex4 n t : body t -> body (backslash :: 117 :: hex4 n ++ t).
Proof.
  intros Ht. destruct (hex4_decodes n) as [u Hu]. unfold hex4 in *. simpl.
  eapply body_u; eauto.
Qed.

Lemma escape_char_body c t : body t -> body (escape_char c ++ t).
Proof.
  intros Ht. unfold escape_char.
  destruct (c =? backslash) eqn:E1; [eapply body_short; [reflexivity|exact Ht]|].
  destruct (c =? dquote) eqn:E2; [eapply body_short; [reflexivity|exact Ht]|].
  destruct ((32 <=? c) && (c <=? 126)) eqn:E3.
  { apply andb_prop in E3. destruct E3 as [E3 _]. simpl. apply body_plain; auto.
    apply N.ltb_ge. apply N.leb_le in E3. exact E3. }
  destruct (c =? 8); [eapply body_short; [reflexivity|exact Ht]|].
  destruct (c =? 12); [eapply body_short; [reflexivity|exact Ht]|].
  destruct (c =? 10); [eapply body_short; [reflexivity|exact Ht]|].
  destruct (c =? 13); [eapply body_short; [reflexivity|exact Ht]|].
  destruct (c =? 9); [eapply body_short; [reflexivity|exact Ht]|].
  destruct (c <? 65536).
  - apply (body_hex4 c t Ht).
  - cbv zeta. rewrite <- app_assoc.
    apply (body_hex4 _ _ (body_hex4 _ _ Ht)).
Qed.

Lemma escape_body s : body (escape s).
Proof.
  induction s as [|c s IH]; simpl; [constructor|].
  apply escape_char_body, IH.
Qed.

Lemma escape_char_printable c : Forall (fun x => printable x = true) (escape_char c).
Proof.
  unfold escape_char.
  destruct (c =? backslash); [repeat constructor|].
  destruct (c =? dquote); [repeat constructor|].
  destruct ((32 <=? c) && (c <=? 126)) eqn:E3; [repeat constructor; exact E3|].
  destruct (c =? 8); [repeat constructor|].
  destruct (c =? 12); [repeat constructor|].
  destruct (c =? 10); [repeat constructor|].
  destruct (c =? 13); [repeat constructor|].
  destruct (c =? 9); [repeat constructor|].
  destruct (c <? 65536).
  - repeat (apply Forall_cons; split; [reflexivity|]). apply hex4_printable.
  - cbv zeta. apply Forall_app. split;
      repeat (apply Forall_cons; split; [reflexivity|]); apply hex4_printable.
Qed.

Lemma escape_printable s : Forall (fun x => printable x = true) (escape s).
Proof.
  induction s as [|c s IH]; simpl; [constructor|].
  apply Forall_app. split; [apply escape_char_printable|exact IH].
Qed.

Lemma encode_printable s :
  Forall (fun x => printable x = true) (encode_basestring_ascii s).
Proof.
  unfold encode_basestring_ascii. apply Forall_cons. split; [reflexivity|].
  apply Forall_app. split; [apply escape_printable|repeat constructor].
Qed.

Lemma join_printable sep parts :
  Forall (fun x => printable x = true) sep ->
  Forall (Forall (fun x => printable x = true)) parts ->
  Forall (fun x => printable x = true) (join sep parts).
Proof.
  intros Hs. induction 1 as [|p ps Hp Hps IH]; simpl; [constructor|].
  destruct ps as [|q ps]; [exact Hp|].
  apply Forall_app. split; [exact Hp|]. apply Forall_app. split; [exact Hs|exact IH].
Qed.

(** Everything [dumps] writes is printable ASCII. *)
Lemma dumps_printable d : Forall (fun x => printable x = true) (dumps d).
Proof.
  unfold dumps. apply Forall_app. split; [repeat constructor|].
  apply Forall_app. split; [|repeat constructor].
  apply join_printable; [repeat constructor|].
  apply Forall_forall. intros p Hp. apply list_elem_of_In in Hp.
  apply List.in_map_iff in Hp. destruct Hp as ([k v] & <- & _).
  unfold dump_item. simpl fst. simpl snd.
  apply Forall_app. split; [apply encode_printable|].
  apply Forall_app. split; [repeat constructor|apply encode_printable].
Qed.

Lemma unescape_not_u e ch : unescape e = Some ch -> (e =? 117) = false.
Proof.
  intros H. destruct (N.eqb_spec e 117) as [->|]; [discriminate H|reflexivity].
Qed.

Lemma push_some c r d rest :
  r = Some (d, rest) -> push c r = Some (c :: d, rest).
Proof. intros ->. reflexivity. Qed.

(** The decoder reads the body of a literal up to its closing quote. *)
Lemma scan_body n : forall t, (length t <= n)%nat -> body t ->
  forall rest, exists d, scanstring (t ++ dquote :: rest) = Some (d, rest).
Proof.
  induction n as [n IH] using lt_wf_ind.
  intros t Hlen Hb rest.
  assert (IH' : forall t', (length t' < length t)%nat -> body t' ->
                 exists d, scanstring (t' ++ dquote :: rest) = Some (d, rest)).
  { intros t' Hl Hb'. destruct n as [|n]; [lia|].
    apply (IH n); [lia|lia|exact Hb']. }
  clear IH.
  inversion Hb as [|c t0 Hc1 Hc2 Hc3 Ht0|e ch t0 He Ht0|h1 h2 h3 h4 u t0 Hu Ht0]; subst.
  - exists []. reflexivity.
  - destruct (IH' t0) as [d Hd]; [simpl; lia|exact Ht0|].
    exists (c :: d). cbn [app scanstring]. rewrite Hc2, Hc3, Hc1.
    apply push_some, Hd.
  - destruct (IH' t0) as [d Hd]; [simpl; lia|exact Ht0|].
    exists (ch :: d). cbn [app scanstring].
    change (backslash =? dquote) with false. change (backslash =? backslash) with true.
    cbv iota. rewrite (unescape_not_u _ _ He), He.
    apply push_some, Hd.
  - destruct (IH' t0) as [d Hd]; [simpl; lia|exact Ht0|].
    cbn [app scanstring].
    change (backslash =? dquote) with false. change (backslash =? backslash) with true.
    change (117 =? 117) with true. cbv iota. rewrite Hu.
    destruct (is_high u); [|eexists; apply push_some, Hd].
    inversion Ht0 as [|c t1 Hc1 Hc2 Hc3 Ht1|e ch t1 He Ht1|g1 g2 g3 g4 u2 t1 Hu2 Ht1];
      subst.
    + cbn [app]. cbn [app] in Hd. destruct rest as [|x rest'].
      * eexists; apply push_some, Hd.
      * change (dquote =? backslash) with false. cbn [andb]. cbv iota.
        eexists; apply push_some, Hd.
    + cbn [app]. cbn [app] in Hd.
      destruct (t1 ++ dquote :: rest) as [|x r3] eqn:E.
      * destruct t1; discriminate E.
      * rewrite Hc3. cbn [andb]. cbv iota. eexists; apply push_some, Hd.
    + cbn [app]. cbn [app] in Hd.
      change (backslash =? backslash) with true. cbn [andb].
      rewrite (unescape_not_u _ _ He). cbv iota.
      eexists; apply push_some, Hd.
    + cbn [app]. cbn [app] in Hd.
      change (backslash =? backslash) with true. change (117 =? 117) with true.
      cbn [andb]. cbv iota. rewrite Hu2.
      destruct (is_low u2); [|eexists; apply push_some, Hd].
      destruct (IH' t1) as [d1 Hd1]; [simpl; lia|exact Ht1|].
      eexists; apply push_some, Hd1.
Qed.

Lemma plain_char_inv c :
  plain_char c = true ->
  printable c = true /\ (c =? dquote) = false /\ (c =? backslash) = false.
Proof.
  unfold plain_char. intros H.
  apply andb_prop in H. destruct H as [H H3].
  apply andb_prop in H. destruct H as [H1 H2].
  apply negb_true_iff in H2, H3. auto.
Qed.

Lemma escape_plain k : plain k -> escape k = k.
Proof.
  induction 1 as [|c k Hc _ IH]; simpl; [reflexivity|].
  apply plain_char_inv in Hc. destruct Hc as (Hp & Hq & Hb).
  unfold escape_char. rewrite Hb, Hq. unfold printable in Hp. rewrite Hp.
  simpl. f_equal. exact IH.
Qed.

Lemma scan_plain k rest : plain k -> scanstring (k ++ dquote :: rest) = Some (k, rest).
Proof.
  induction 1 as [|c k Hc _ IH]; [reflexivity|].
  apply plain_char_inv in Hc. destruct Hc as (Hp & Hq & Hb).
  cbn [app scanstring]. rewrite Hq, Hb.
  replace (c <? 32) with false.
  - apply push_some, IH.
  - symmetry. apply N.ltb_ge. unfold printable in Hp.
    apply andb_prop in Hp. destruct Hp as [Hp _]. apply N.leb_le in Hp. exact Hp.
Qed.

Lemma dump_item_shape k v rest :
  dump_item (k, v) ++ rest
  = dquote :: escape k ++ dquote :: 58 :: 32 :: dquote :: escape v ++ dquote :: rest.
Proof.
  unfold dump_item, encode_basestring_ascii. simpl.
  rewrite <- !app_assoc. simpl. rewrite <- !app_assoc. reflexivity.
Qed.

(** One member: the key is read back as it is, and the parser goes on
    with what follows the value. *)
Lemma scan_value v rest :
  exists v', (plain v -> v' = v)
             /\ scanstring (escape v ++ dquote :: rest) = Some (v', rest).
Proof.
  destruct (decide (Forall (fun c => plain_char c = true) v)) as [Hv|Hv].
  - exists v. split; [reflexivity|].
    rewrite (escape_plain v Hv). apply scan_plain, Hv.
  - destruct (scan_body _ (escape v) (le_n _) (escape_body v) rest) as [v' Hv'].
    exists v'. split; [intros H; contradiction|exact Hv'].
Qed.

(** One member: the key is read back as it is, and the parser goes on
    with what follows the value. *)
Lemma parse_one_member k v rest :
  plain k ->
  exists v', (plain v -> v' = v) /\ forall fuel,
    parse_members (S fuel) (dump_item (k, v) ++ rest)
    = match skip_ws rest with
      | d :: r5 =>
          if d =? 125 then Some ([(k, v')], r5)
          else if d =? 44 then
            match parse_members fuel (skip_ws r5) with
            | Some (ms, rest') => Some ((k, v') :: ms, rest')
            | None => None
            end
          else None
      | [] => None
      end.
Proof.
  intros Hk.
  destruct (scan_value v rest) as (v' & Hplain & Hv).
  exists v'. split; [exact Hplain|].
  intros fuel. rewrite dump_item_shape, (escape_plain k Hk).
  cbn [parse_members]. change (dquote =? dquote) with true. cbn [negb].
  rewrite (scan_plain k _ Hk).
  change (skip_ws (58 :: 32 :: dquote :: escape v ++ dquote :: rest))
    with (58 :: 32 :: dquote :: escape v ++ dquote :: rest).
  change (58 =? 58) with true. cbn [negb].
  change (skip_ws (32 :: dquote :: escape v ++ dquote :: rest))
    with (dquote :: escape v ++ dquote :: rest).
  change (dquote =? dquote) with true. cbn [negb].
  rewrite Hv. reflexivity.
Qed.

Lemma join_items_cons kv kv2 es :
  join [44; 32] (map dump_item (kv :: kv2 :: es))
  = dump_item kv ++ 44 :: 32 :: join [44; 32] (map dump_item (kv2 :: es)).
Proof. reflexivity. Qed.

Lemma join_items_head kv es :
  exists r, join [44; 32] (map dump_item (kv :: es)) = dquote :: r.
Proof.
  destruct es as [|kv2 es]; simpl; unfold dump_item, encode_basestring_ascii;
    simpl; eexists; reflexivity.
Qed.

Lemma parse_members_dumps entry :
  entry <> [] -> Forall (fun kv => plain (fst kv)) entry ->
  forall fuel tail, (length entry <= fuel)%nat ->
  exists ms,
    parse_members fuel (join [44; 32] (map dump_item entry) ++ 125 :: tail)
    = Some (ms, tail)
    /\ Forall2 same_member ms entry.
Proof.
  induction entry as [|[k v] entry IH]; [congruence|].
  intros _ Hp fuel tail Hf. inversion Hp as [|? ? Hk Hrest]; subst. simpl in Hk.
  destruct fuel as [|fuel]; [simpl in Hf; lia|].
  destruct entry as [|kv2 entry].
  - destruct (parse_one_member k v (125 :: tail) Hk) as (v' & Hpl & Hv).
    exists [(k, v')]. split.
    + change (join [44; 32] (map dump_item [(k, v)])) with (dump_item (k, v)).
      rewrite Hv. reflexivity.
    + repeat constructor. exact Hpl.
  - rewrite join_items_cons, <- app_assoc.
    destruct (parse_one_member k v
                ((44 :: 32 :: join [44; 32] (map dump_item (kv2 :: entry)))
                 ++ 125 :: tail) Hk) as (v' & Hpl & Hv).
    rewrite Hv. clear Hv.
    destruct (IH ltac:(discriminate) Hrest fuel tail ltac:(simpl in *; lia))
      as (ms & Hms & Hsame).
    destruct (join_items_head kv2 entry) as [r Hr].
    rewrite Hr in *.
    change (skip_ws ((44 :: 32 :: dquote :: r) ++ 125 :: tail))
      with (44 :: 32 :: dquote :: r ++ 125 :: tail).
    change (44 =? 125) with false. change (44 =? 44) with true. cbv iota.
    change (skip_ws (32 :: dquote :: r ++ 125 :: tail))
      with (dquote :: r ++ 125 :: tail).
    change ((dquote :: r) ++ 125 :: tail) with (dquote :: r ++ 125 :: tail) in Hms.
    rewrite Hms. exists ((k, v') :: ms). split; [reflexivity|].
    constructor; [split; [reflexivity|exact Hpl]|exact Hsame].
Qed.

Lemma join_items_length d :
  Nat.le (length d) (length (join [44; 32] (map dump_item d))).
Proof.
  induction d as [|kv d IH]; [simpl; lia|].
  destruct d as [|kv2 d].
  - unfold dump_item, encode_basestring_ascii. simpl. lia.
  - rewrite join_items_cons, length_app. cbn [length] in *. lia.
Qed.

Lemma dumps_length d : (length d <= length (dumps d))%nat.
Proof.
  unfold dumps. rewrite !length_app. pose proof (join_items_length d). simpl. lia.
Qed.

(** What [dumps] writes for a dictionary with plain keys is read back by
    [loads] as an object with the same keys in the same order, and with
    the same values where they needed no escape. *)
Lemma loads_dumps entry :
  Forall (fun kv => plain (fst kv)) entry ->
  exists ms, loads (dumps entry) = Some ms /\ Forall2 same_member ms entry.
Proof.
  intros Hp. destruct entry as [|kv entry].
  - exists []. split; [reflexivity|constructor].
  - destruct (parse_members_dumps (kv :: entry) ltac:(discriminate) Hp
                (length (dumps (kv :: entry))) [] (dumps_length _))
      as (ms & Hms & Hsame).
    exists ms. split; [|exact Hsame].
    destruct (join_items_head kv entry) as [r Hr].
    unfold loads. remember (length (dumps (kv :: entry))) as n eqn:En. clear En.
    unfold dumps. rewrite Hr in *.
    change (skip_ws ([123] ++ (dquote :: r) ++ [125]))
      with (123 :: dquote :: r ++ [125]).
    change (123 =? 123) with true. cbn [negb].
    change (skip_ws (dquote :: r ++ [125])) with (dquote :: r ++ [125]).
    change (dquote =? 125) with false. cbv iota.
    change ((dquote :: r) ++ [125]) with (dquote :: r ++ [125]) in Hms.
    rewrite Hms. reflexivity.
Qed.

Lemma same_member_keys ms entry :
  Forall2 same_member ms entry -> map fst ms = map fst entry.
Proof.
  induction 1 as [|m e ms entry [Hk _] _ IH]; [reflexivity|].
  cbn. rewrite Hk, IH. reflexivity.
Qed.

Lemma same_member_value ms entry k v :
  Forall2 same_member ms entry -> In (k, v) entry -> plain v -> In (k, v) ms.
Proof.
  induction 1 as [|m e ms entry [Hk Hv] _ IH]; [intros []|].
  intros [->|Hin] Hpl.
  - left. destruct m as [k' v']. cbn in *. rewrite Hk, (Hv Hpl). reflexivity.
  - right. apply IH; assumption.
Qed.

End JsonFacts.

(** ** [JSONFormatter.format] *)

Section FormatFacts.

Import PyStr Json Logging.

Lemma log_entry_keys fe now record message :
  map fst (log_entry fe now record message) = expected_keys record.
Proof.
  unfold log_entry, expected_keys, has_exception.
  destruct (exc_info record) as [ei|]; [|reflexivity].
  destruct (ei_value ei); reflexivity.
Qed.

Lemma expected_keys_plain record : Forall plain (expected_keys record).
Proof.
  unfold expected_keys, base_keys.
  destruct (has_exception record); repeat constructor.
Qed.

Lemma log_entry_base fe now record message :
  In (str_of "level", levelname record) (log_entry fe now record message)
  /\ In (str_of "logger", name record) (log_entry fe now record message)
  /\ In (str_of "message", message) (log_entry fe now record message).
Proof.
  assert (E : forall t l n m x,
             dict_set [(str_of "timestamp", t); (str_of "level", l);
                       (str_of "logger", n); (str_of "message", m)]
                      (str_of "exc_info") x
             = [(str_of "timestamp", t); (str_of "level", l);
                (str_of "logger", n); (str_of "message", m);
                (str_of "exc_info", x)]) by reflexivity.
  unfold log_entry.
  destruct (exc_info record) as [ei|]; [destruct (ei_value ei)|];
    rewrite ?E; cbn [In]; tauto.
Qed.

(** C10, as the code has it.  When [getMessage] raises (the arguments do
    not fit the message's format), [format] raises the same exception.
    For every other record [format] returns a string of printable ASCII
    characters only, so one without a newline whatever the message
    holds, which [json.loads] reads as an object whose keys are
    [timestamp], [level], [logger] and [message], followed by [exc_info]
    exactly when the record carries exception info whose value is not
    [None]; the level, the logger name and the message are read back
    unchanged when they hold nothing that is escaped. *)
Theorem format_single_line_json
    (percent : pystr -> list PyVal -> PyResult pystr)
    (formatException : ExcInfo -> pystr) (now_iso : pystr) (record : LogRecord) :
  match getMessage percent record with
  | Raise e => format percent formatException now_iso record = Raise e
  | Ok message =>
      exists out,
        format percent formatException now_iso record = Ok out
        /\ Forall (fun c => printable c = true) out
        /\ ~ In 10 out
        /\ exists members,
             loads out = Some members
             /\ map fst members = expected_keys record
             /\ (In (str_of "exc_info") (map fst members)
                 <-> has_exception record = true)
             /\ (plain (levelname record) ->
                 In (str_of "level", levelname record) members)
             /\ (plain (name record) ->
                 In (str_of "logger", name record) members)
             /\ (plain message -> In (str_of "message", message) members)
  end.
Proof.
  unfold format. destruct (getMessage percent record) as [message|e]; [|reflexivity].
  eexists. split; [reflexivity|].
  pose proof (dumps_printable (log_entry formatException now_iso record message)) as Hp.
  split; [exact Hp|]. split.
  { intros Hin. rewrite List.Forall_forall in Hp. specialize (Hp _ Hin). discriminate Hp. }
  destruct (loads_dumps (log_entry formatException now_iso record message))
    as (ms & Hms & Hsame).
  { pose proof (expected_keys_plain record) as Hk.
    rewrite <- (log_entry_keys formatException now_iso record message) in Hk.
    apply Forall_forall. intros kv Hkv. rewrite Forall_forall in Hk.
    apply Hk. apply list_elem_of_fmap. exists kv. split; [reflexivity|exact Hkv]. }
  exists ms. split; [exact Hms|].
  rewrite (same_member_keys _ _ Hsame), log_entry_keys. split; [reflexivity|].
  destruct (log_entry_base formatException now_iso record message) as (B1 & B2 & B3).
  split.
  { unfold expected_keys, base_keys. destruct (has_exception record); simpl.
    - split; [reflexivity|]. intros _. do 4 right. left. reflexivity.
    - split; [|discriminate].
      intros H. repeat (destruct H as [H|H]; [discriminate H|]). destruct H. }
  split; [intros H; eapply same_member_value; eauto|].
  split; intros H; eapply same_member_value; eauto.
Qed.

(** The record of [test_basic_message] and what [format] returns for it. *)
Example format_basic_message :
  format percent_sd (fun _ => []) test_now
    {| name := str_of "tessera.test"; levelname := str_of "INFO";
       msg := str_of "hello %s"; args := [VStr (str_of "world")];
       exc_info := None |}
  = Ok (str_of "{" ++ quoted "timestamp" ++ str_of ": " ++ quoted "2026-02-16T12:00:00+00:00"
        ++ str_of ", " ++ quoted "level" ++ str_of ": " ++ quoted "INFO"
        ++ str_of ", " ++ quoted "logger" ++ str_of ": " ++ quoted "tessera.test"
        ++ str_of ", " ++ quoted "message" ++ str_of ": " ++ quoted "hello world"
        ++ str_of "}").
Proof. reflexivity. Qed.

(** The record of [test_exception_info]: the traceback text, newline
    included, is written as one line and read back as it was. *)
Example format_exception_info :
  let trace := str_of "Traceback (most recent call last):" ++ [10]
               ++ str_of "ValueError: test error" in
  exists out,
    format percent_sd (fun _ => trace) test_now
      {| name := str_of "tessera.test"; levelname := str_of "ERROR";
         msg := str_of "something broke"; args := [];
         exc_info := Some {| ei_type := Some (str_of "ValueError");
                             ei_value := Some (str_of "test error");
                             ei_trace := [] |} |} = Ok out
    /\ ~ In 10 out
    /\ loads out
       = Some [(str_of "timestamp", test_now); (str_of "level", str_of "ERROR");
               (str_of "logger", str_of "tessera.test");
               (str_of "message", str_of "something broke");
               (str_of "exc_info", trace)].
Proof.
  eexists. split; [reflexivity|]. split; [|vm_compute; reflexivity].
  vm_compute. intuition discriminate.
Qed.

(** The message of [test_output_is_single_line]: its newlines are
    written as escapes. *)
Example format_multiline_message :
  exists out,
    format percent_sd (fun _ => []) test_now
      {| name := str_of "tessera.test"; levelname := str_of "WARNING";
         msg := [109; 10; 108]; args := []; exc_info := None |} = Ok out
    /\ ~ In 10 out.
Proof.
  eexists. split; [reflexivity|]. vm_compute. intuition discriminate.
Qed.

(** C10, as stated, fails: a record whose arguments do not fit its
    message ([logger.info] called with the format [%d] and a string)
    makes [getMessage], and with it [format], raise [TypeError]; no
    string is returned. *)
Lemma format_raises_on_bad_arguments :
  let record :=
    {| name := str_of "tessera.test"; levelname := str_of "INFO";
       msg := str_of "%d"; args := [VStr (str_of "x")]; exc_info := None |} in
  format percent_sd (fun _ => []) test_now record
  = Raise (TypeError (str_of "%d format: a real number is required, not str"))
  /\ ~ exists out, format percent_sd (fun _ => []) test_now record = Ok out.
Proof.
  split; [reflexivity|]. intros [out H]. discriminate H.
Qed.

End FormatFacts.

(** ** Migration 015 *)

Section MigrationFacts.

Import Migration015.
Local Open Scope string_scope.
Local Open Scope list_scope.

Lemma has_label_In l labels : has_label l labels = true <-> In l labels.
Proof.
  unfold has_label. rewrite List.existsb_exists. split.
  - intros (x & Hx & E). apply String.eqb_eq in E. subst. exact Hx.
  - intros H. exists l. split; [exact H|apply String.eqb_refl].
Qed.

Lemma insert_after_split neighbor new labels :
  In neighbor labels ->
  exists pre post,
    labels = pre ++ neighbor :: post
    /\ insert_after neighbor new labels = pre ++ neighbor :: new :: post.
Proof.
  induction labels as [|l ls IH]; [intros []|].
  intros H. simpl. destruct (String.eqb_spec l neighbor) as [->|Hne].
  - exists [], ls. split; reflexivity.
  - destruct H as [H|H]; [congruence|].
    destruct (IH H) as (pre & post & E1 & E2).
    exists (l :: pre), post. simpl. rewrite <- E1, E2. split; reflexivity.
Qed.

(** What one [ADD VALUE IF NOT EXISTS new AFTER neighbor] leaves. *)
Lemma add_value_spec new neighbor labels labels' :
  add_value_if_not_exists_after new neighbor labels = inr labels' ->
  In new labels'
  /\ (forall l, In l labels -> In l labels')
  /\ (forall l, In l labels' -> In l labels \/ l = new)
  /\ (~ In new labels ->
      In neighbor labels'
      /\ exists pre post,
           labels = pre ++ neighbor :: post
           /\ labels' = pre ++ neighbor :: new :: post).
Proof.
  unfold add_value_if_not_exists_after.
  destruct (has_label new labels) eqn:Hn.
  - intros [= <-]. apply has_label_In in Hn.
    split; [exact Hn|]. split; [auto|]. split; [auto|].
    intros Hc. contradiction.
  - destruct (has_label neighbor labels) eqn:Hnb; [|discriminate].
    intros [= <-]. apply has_label_In in Hnb.
    destruct (insert_after_split neighbor new labels Hnb) as (pre & post & E1 & E2).
    rewrite E2. split; [|split; [|split]].
    + apply List.in_or_app. right. right. left. reflexivity.
    + intros l. rewrite E1. rewrite !List.in_app_iff. simpl. tauto.
    + intros l. rewrite E1. rewrite !List.in_app_iff. simpl. intuition.
    + intros _. split.
      * apply List.in_or_app. right. left. reflexivity.
      * exists pre, post. split; [exact E1|reflexivity].
Qed.

Lemma add_value_succeeds new neighbor labels :
  In neighbor labels ->
  exists labels', add_value_if_not_exists_after new neighbor labels = inr labels'.
Proof.
  intros H. unfold add_value_if_not_exists_after.
  destruct (has_label new labels); [eexists; reflexivity|].
  rewrite (proj2 (has_label_In neighbor labels) H). eexists; reflexivity.
Qed.

(** C2, as the code has it.  On a PostgreSQL database whose two enum
    types hold, when the migration starts, the proposal statuses
    pending, approved, withdrawn, expired, rejected and the delivery
    statuses pending, delivered, failed, the migration succeeds, and the
    stored vocabulary is then for delivery records exactly pending,
    delivered, failed, dead_lettered, and for proposals exactly the five
    values pending, published, withdrawn, expired, rejected and
    [approved]: six values, not five.  And on whatever PostgreSQL
    database the migration adds [published], [approved] is a stored
    proposal status afterwards, so that the stored vocabulary is not the
    five values. *)
Theorem upgrade_vocabulary (db : Database) :
  dialect db = postgresql ->
  (same_labels (proposalstatus db) proposal_vocabulary_before ->
   same_labels (webhookdeliverystatus db) delivery_vocabulary_before ->
   exists db',
     upgrade db = inr db'
     /\ same_labels (proposalstatus db') ("approved" :: spec_proposal_vocabulary)
     /\ same_labels (webhookdeliverystatus db') spec_delivery_vocabulary)
  /\ (forall db',
        upgrade db = inr db' ->
        ~ In "published" (proposalstatus db) ->
        In "published" (proposalstatus db')
        /\ In "approved" (proposalstatus db')
        /\ ~ same_labels (proposalstatus db') spec_proposal_vocabulary).
Proof.
  intros Hd. split.
  - intros Hp Hw.
    assert (Ha : In "approved" (proposalstatus db)) by (apply Hp; simpl; tauto).
    assert (Hf : In "failed" (webhookdeliverystatus db)) by (apply Hw; simpl; tauto).
    destruct (add_value_succeeds "published" "approved" _ Ha) as (ps & Eps).
    destruct (add_value_succeeds "dead_lettered" "failed" _ Hf) as (ws & Ews).
    eexists. unfold upgrade, _is_sqlite. rewrite Hd, Eps, Ews.
    split; [reflexivity|]. cbn [proposalstatus webhookdeliverystatus].
    destruct (add_value_spec _ _ _ _ Eps) as (P1 & P2 & P3 & _).
    destruct (add_value_spec _ _ _ _ Ews) as (W1 & W2 & W3 & _).
    split; intros l; split; intros H.
    + destruct (P3 l H) as [H0| ->]; [|simpl; tauto].
      apply Hp in H0. simpl in *. tauto.
    + assert (H0 : "published" = l \/ In l proposal_vocabulary_before)
        by (simpl in *; tauto).
      destruct H0 as [<-|H0]; [exact P1|]. apply P2, Hp, H0.
    + destruct (W3 l H) as [H0| ->]; [|simpl; tauto].
      apply Hw in H0. simpl in *. tauto.
    + assert (H0 : "dead_lettered" = l \/ In l delivery_vocabulary_before)
        by (simpl in *; tauto).
      destruct H0 as [<-|H0]; [exact W1|]. apply W2, Hw, H0.
  - intros db'. unfold upgrade, _is_sqlite. rewrite Hd.
    destruct (add_value_if_not_exists_after "published" "approved" (proposalstatus db))
      as [e|ps] eqn:Hp; [discriminate|].
    destruct (add_value_if_not_exists_after "dead_lettered" "failed"
                (webhookdeliverystatus db)) as [e|ws] eqn:Hw; [discriminate|].
    intros [= <-] Hn. cbn [proposalstatus].
    destruct (add_value_spec _ _ _ _ Hp) as (P1 & _ & _ & P4).
    destruct (P4 Hn) as (Ha & _).
    split; [exact P1|]. split; [exact Ha|].
    intros Hs. apply Hs in Ha. simpl in Ha.
    destruct Ha as [H|[H|[H|[H|[H|H]]]]]; try discriminate H; exact H.
Qed.

Lemma upgrade_vocabulary_before_015 :
  exists db',
    upgrade before_015 = inr db'
    /\ same_labels (proposalstatus db')
         ["approved"; "pending"; "published"; "withdrawn"; "expired"; "rejected"]
    /\ same_labels (webhookdeliverystatus db')
         ["pending"; "delivered"; "failed"; "dead_lettered"]
    /\ ~ same_labels (proposalstatus db') spec_proposal_vocabulary.
Proof.
  destruct (upgrade_vocabulary before_015 eq_refl) as [H1 H2].
  destruct H1 as (db' & E & Hp & Hw).
  - intros l. simpl. tauto.
  - intros l. simpl. tauto.
  - exists db'. split; [exact E|]. split; [exact Hp|]. split; [exact Hw|].
    apply (H2 db' E). simpl. intuition discriminate.
Defined.

(** C2, as stated, fails.  After the migration the stored proposal-status
    type holds [approved] next to [published], so its labels are not
    the five of the specification; and from a type that holds exactly the
    specification's values without the new one the migration does not
    run at all, for want of the label [approved]. *)
Lemma upgrade_keeps_approved :
  (exists db',
      upgrade before_015 = inr db'
      /\ proposalstatus db'
         = ["pending"; "approved"; "published"; "rejected"; "withdrawn"; "expired"]
      /\ webhookdeliverystatus db' = ["pending"; "delivered"; "failed"; "dead_lettered"]
      /\ In "approved" (proposalstatus db')
      /\ ~ same_labels (proposalstatus db') spec_proposal_vocabulary)
  /\ upgrade {| dialect := postgresql;
                proposalstatus := ["pending"; "withdrawn"; "expired"; "rejected"];
                webhookdeliverystatus := ["pending"; "delivered"; "failed"] |}
     = inl (not_an_existing_enum_label "approved").
Proof.
  split; [|reflexivity].
  eexists. split; [reflexivity|]. split; [reflexivity|]. split; [reflexivity|].
  split; [simpl; tauto|].
  intros H. specialize (H "approved"). simpl in H.
  destruct H as [H _]. destruct H as [H|[H|[H|[H|[H|H]]]]];
    try discriminate H; try tauto.
Qed.

End MigrationFacts.

(** ** The compatibility checker *)

Section CheckerFacts.

Import Checker.
Local Open Scope string_scope.
Local Open Scope list_scope.


















(** Two documents with the same fields, built in different orders. *)

Example check_same_fields :
  let v1 : gmap string Field := <["id" := int_field true]> ∅ in
  let v2 : gmap string Field := <["new_id" := str_field true]> ∅ in
  check (<["id" := int_field true]> (<["name" := str_field false]> ∅)) v1
        backward [consumer_of v1 "team-B"]
  = check (<["name" := str_field false]> (<["id" := int_field true]> ∅)) v1
          backward [consumer_of v1 "team-B"]
  /\ check v1 v2 backward [consumer_of v1 "team-B"]
     = breaking [{| kind := field_removed; field := "id" |};
                 {| kind := required_added; field := "new_id" |}]
  /\ check v1 v2 backward [] = compatible
  /\ check v1 v2 none [consumer_of v1 "team-B"] = compatible.
Proof. repeat split; reflexivity. Qed.

End CheckerFacts.

(** ** The engine *)

Section EngineFacts.

Import Checker Engine.
Local Open Scope string_scope.
Local Open Scope list_scope.
Local Open Scope nat_scope.

Variable window : nat.
Variables threshold cooldown max_attempts : nat.
Variable net : string -> nat -> nat -> NetResult.
Variable sink_up : Event -> bool.

Abbreviation run_op := (Engine.run_op window threshold cooldown max_attempts net sink_up).
Abbreviation reachable := (Engine.reachable window threshold cooldown max_attempts net sink_up).

Lemma run_op_gov_step s o : gov_step (gov s) (gov (run_op s o)).
Proof.
  destruct o; cbn [Engine.run_op].
  - unfold publish, run, publish_step.
    destruct (pending_for asset 0 (proposals (gov s))); [apply gs_same; reflexivity|].
    destruct (active_contract asset (contracts (gov s))) as [cur|].
    + destruct (check _ _ _ _).
      * eapply gs_activate; reflexivity.
      * eapply gs_propose; cycle 1; [reflexivity|reflexivity|reflexivity].
    + eapply gs_activate; reflexivity.
  - unfold resolve_proposal, run, resolve_step.
    destruct (proposals (gov s) !! pid) as [p|] eqn:Hp; [|apply gs_same; reflexivity].
    destruct (p_status p) eqn:Hs; try (apply gs_same; reflexivity).
    eapply (gs_resolve _ _ pid p a now actor); [exact Hp|exact Hs| |];
      destruct a; reflexivity.
  - unfold file_objection, run, file_objection_step.
    destruct (proposals (gov s) !! pid) as [p|]; [|apply gs_same; reflexivity].
    destruct (p_status p); apply gs_same; reflexivity.
  - unfold sweep_expired, sweep_step. cbn. eapply gs_sweep; reflexivity.
  - unfold replay_dead_letter.
    destruct (deliveries (disp s) !! rid) as [r|]; [|apply gs_same; reflexivity].
    destruct (d_status r); apply gs_same; reflexivity.
  - unfold restore_asset, run, restore_asset_step.
    destruct (assets (gov s) !! id) as [a|]; [|apply gs_same; reflexivity].
    destruct (a_deleted_at a); apply gs_same; reflexivity.
  - apply gs_same; reflexivity.
  - unfold cancel_registration, run, cancel_registration_step.
    destruct (registrations (gov s) !! i); apply gs_same; reflexivity.
  - apply gs_same; reflexivity.
  - unfold delete_asset, run, delete_asset_step.
    destruct (assets (gov s) !! id) as [a|]; [|apply gs_same; reflexivity].
    destruct (a_deleted_at a); apply gs_same; reflexivity.
Qed.

(** *** One active contract per asset *)

Lemma count_active_app a l1 l2 :
  count_active a (l1 ++ l2) = count_active a l1 + count_active a l2.
Proof. unfold count_active. rewrite List.filter_app, length_app. reflexivity. Qed.

Lemma count_active_supersede_same a cs :
  count_active a (map (supersede a) cs) = 0.
Proof.
  unfold count_active. induction cs as [|c cs IH]; [reflexivity|].
  cbn [map List.filter]. unfold supersede at 1 2.
  destruct (String.eqb (c_asset c) a && is_active c) eqn:E.
  - cbn. rewrite andb_false_r. exact IH.
  - rewrite E. exact IH.
Qed.

Lemma count_active_supersede_other a b cs :
  a <> b -> count_active b (map (supersede a) cs) = count_active b cs.
Proof.
  intros Hne. unfold count_active. induction cs as [|c cs IH]; [reflexivity|].
  cbn [map List.filter]. unfold supersede at 1 2.
  destruct (String.eqb (c_asset c) a && is_active c) eqn:E.
  - apply andb_prop in E. destruct E as [E1 E2]. apply String.eqb_eq in E1.
    cbn [with_status c_asset]. rewrite E1.
    replace (String.eqb a b) with false by (symmetry; apply String.eqb_neq, Hne).
    cbn. exact IH.
  - destruct (String.eqb (c_asset c) b && is_active c); cbn; rewrite IH; reflexivity.
Qed.

Lemma count_active_activate b cs new :
  count_active b (activate cs new)
  = if String.eqb (c_asset new) b then 1 else count_active b cs.
Proof.
  unfold activate. rewrite count_active_app.
  destruct (String.eqb_spec (c_asset new) b) as [<-|Hne].
  - rewrite count_active_supersede_same. unfold count_active. cbn.
    rewrite String.eqb_refl. reflexivity.
  - rewrite (count_active_supersede_other _ _ _ Hne). unfold count_active at 2. cbn.
    replace (String.eqb (c_asset new) b) with false
      by (symmetry; apply String.eqb_neq, Hne).
    cbn. lia.
Qed.

Lemma activate_lookup_old cs new i c :
  cs !! i = Some c -> activate cs new !! i = Some (supersede (c_asset new) c).
Proof.
  intros H. unfold activate. rewrite lookup_app_l.
  - rewrite list_lookup_fmap, H. reflexivity.
  - rewrite length_map. eapply lookup_lt_Some, H.
Qed.

Lemma activate_lookup_new cs new :
  activate cs new !! length cs = Some (with_status new active).
Proof.
  unfold activate. rewrite lookup_app_r by (rewrite length_map; lia).
  rewrite length_map, Nat.sub_diag. reflexivity.
Qed.

Lemma gov_step_one_active g g' : gov_step g g' -> one_active g -> one_active g'.
Proof.
  intros Hs Hi asset. specialize (Hi asset).
  destruct Hs as [Hc _|new Hc _|p0 _ _ Hc|pid p a now actor _ _ _ Hc|now _ Hc];
    rewrite Hc; try exact Hi.
  - rewrite count_active_activate. destruct (String.eqb _ asset); lia.
  - destruct a; try exact Hi.
    rewrite count_active_activate. destruct (String.eqb _ asset); lia.
Qed.

Lemma reachable_one_active s : reachable s -> one_active (gov s).
Proof.
  induction 1 as [|s o _ IH].
  - intros asset. cbn. lia.
  - eapply gov_step_one_active; [apply run_op_gov_step|exact IH].
Qed.

Lemma activate_spec cs new :
  activate cs new !! length cs = Some (with_status new active)
  /\ count_active (c_asset new) (activate cs new) = 1
  /\ (forall i c, cs !! i = Some c ->
        activate cs new !! i
        = Some (if String.eqb (c_asset c) (c_asset new) && is_active c
                then with_status c superseded else c)).
Proof.
  split; [apply activate_lookup_new|]. split.
  - rewrite count_active_activate, String.eqb_refl. reflexivity.
  - intros i c H. apply activate_lookup_old, H.
Qed.

(** C1. In every state the operations reach, each asset has no or one
    active contract.  An operation either leaves the contracts as they
    are or activates one new version, and then, in that same step, the
    new version is the asset's only active contract and the contract
    that was active before is superseded, every other contract staying
    as it was. *)
Theorem at_most_one_active_contract s :
  reachable s ->
  (forall asset, count_active asset (contracts (gov s)) <= 1)
  /\ (forall o,
        (forall asset, count_active asset (contracts (gov (run_op s o))) <= 1)
        /\ (contracts (gov (run_op s o)) = contracts (gov s)
            \/ exists new,
                 contracts (gov (run_op s o)) = activate (contracts (gov s)) new
                 /\ contracts (gov (run_op s o)) !! length (contracts (gov s))
                    = Some (with_status new active)
                 /\ count_active (c_asset new) (contracts (gov (run_op s o))) = 1
                 /\ (forall i c, contracts (gov s) !! i = Some c ->
                       contracts (gov (run_op s o)) !! i
                       = Some (if String.eqb (c_asset c) (c_asset new) && is_active c
                               then with_status c superseded else c)))).
Proof.
  intros Hr. split; [apply reachable_one_active, Hr|].
  intros o. split.
  { apply (reachable_one_active (run_op s o)). constructor. exact Hr. }
  destruct (run_op_gov_step s o)
    as [Hc _|new Hc _|p0 _ _ Hc|pid p a now actor _ _ _ Hc|now _ Hc];
    try (left; exact Hc).
  - right. exists new. rewrite Hc.
    destruct (activate_spec (contracts (gov s)) new) as (H1 & H2 & H3). auto.
  - destruct a; try (left; exact Hc).
    right. exists (proposed_contract p). rewrite Hc.
    destruct (activate_spec (contracts (gov s)) (proposed_contract p)) as (H1 & H2 & H3).
    auto.
Qed.

(** *** Terminal proposals *)

Lemma activate_keeps_target cs new p c :
  In c cs -> target_of p c -> exists c', In c' (activate cs new) /\ target_of p c'.
Proof.
  intros Hin (Ha & Hv & Hs). exists (supersede (c_asset new) c). split.
  - unfold activate. apply List.in_or_app. left. apply List.in_map, Hin.
  - unfold supersede, target_of, became_active.
    destruct (String.eqb (c_asset c) (c_asset new) && is_active c); cbn; auto.
Qed.

Lemma activate_has_target cs p :
  exists c, In c (activate cs (proposed_contract p))
            /\ c_asset c = p_asset p /\ c_version c = p_proposed p /\ became_active c.
Proof.
  exists (with_status (proposed_contract p) active). split.
  - unfold activate. apply List.in_or_app. right. left. reflexivity.
  - unfold became_active. cbn. auto.
Qed.

Lemma gov_step_terminal_ok g g' : gov_step g g' -> terminal_ok g -> terminal_ok g'.
Proof.
  intros Hs Hi pid' q Hq.
  destruct Hs as [Hc Hp|new Hc Hp|p0 Hp0 Hp Hc|pid p a now actor Hl Hst Hp Hc|now Hp Hc].
  - rewrite Hp in Hq. rewrite Hc. apply (Hi _ _ Hq).
  - rewrite Hp in Hq. destruct (Hi _ _ Hq) as [H1 H2]. split; [exact H1|].
    intros Hpub. destruct (H2 Hpub) as (c & Hin & Ht). rewrite Hc.
    eapply activate_keeps_target; eauto.
  - rewrite Hp in Hq. rewrite Hc. apply lookup_app_Some in Hq.
    destruct Hq as [Hq|[_ Hq]]; [apply (Hi _ _ Hq)|].
    apply list_lookup_singleton_Some in Hq. destruct Hq as [_ <-].
    split; intros H; congruence.
  - rewrite Hp in Hq. destruct (decide (pid = pid')) as [<-|Hne].
    + rewrite list_lookup_insert_eq in Hq by (eapply lookup_lt_Some, Hl).
      injection Hq as <-. cbn. split; [intros _; split; eexists; reflexivity|].
      intros Hpub. destruct a; try discriminate Hpub. rewrite Hc.
      destruct (activate_has_target (contracts g) p) as (c & Hin & Ht).
      exists c. split; [exact Hin|exact Ht].
    + rewrite list_lookup_insert_ne in Hq by exact Hne.
      destruct (Hi _ _ Hq) as [H1 H2]. split; [exact H1|].
      intros Hpub. destruct (H2 Hpub) as (c & Hin & Ht). rewrite Hc.
      destruct a; eauto. eapply activate_keeps_target; eauto.
  - rewrite Hp, list_lookup_fmap in Hq. rewrite Hc.
    destruct (proposals g !! pid') as [q0|] eqn:Hq0; [|discriminate Hq].
    injection Hq as <-. unfold expire, due, is_pending.
    destruct (p_status q0) eqn:Hs; cbn; try apply (Hi _ _ Hq0).
    destruct (p_expires q0 <=? now); cbn.
    + split; [intros _; split; eexists; reflexivity|discriminate].
    + apply (Hi _ _ Hq0).
Qed.

Lemma reachable_terminal_ok s : reachable s -> terminal_ok (gov s).
Proof.
  induction 1 as [|s o _ IH].
  - intros pid p H. discriminate H.
  - eapply gov_step_terminal_ok; [apply run_op_gov_step|exact IH].
Qed.

(** An operation leaves a proposal that is not pending as it is. *)
Lemma gov_step_terminal_kept g g' pid p :
  gov_step g g' -> proposals g !! pid = Some p -> p_status p <> pending ->
  proposals g' !! pid = Some p.
Proof.
  intros Hs Hl Hst.
  destruct Hs as [_ Hp|new _ Hp|p0 _ Hp _|pid' p' a now actor Hl' Hst' Hp _|now Hp _];
    rewrite Hp; try exact Hl.
  - apply lookup_app_l_Some, Hl.
  - rewrite list_lookup_insert_ne; [exact Hl|]. intros ->. congruence.
  - rewrite list_lookup_fmap, Hl. cbn. f_equal. unfold expire, due, is_pending.
    destruct (p_status p); try reflexivity. congruence.
Qed.

Abbreviation publish := (Engine.publish window threshold cooldown max_attempts net sink_up).
Abbreviation resolve_proposal :=
  (Engine.resolve_proposal threshold cooldown max_attempts net sink_up).
Abbreviation commit := (Engine.commit threshold cooldown max_attempts net sink_up).

Lemma run_ops_terminal_kept os : forall s pid p,
  proposals (gov s) !! pid = Some p -> p_status p <> pending ->
  proposals (gov (fold_left run_op os s)) !! pid = Some p.
Proof.
  induction os as [|o os IH]; intros s pid p Hl Hst; [exact Hl|].
  cbn [fold_left]. apply IH; [|exact Hst].
  eapply gov_step_terminal_kept; [apply run_op_gov_step|exact Hl|exact Hst].
Qed.

Lemma find_supersede_none a cs :
  List.find (fun c => String.eqb (c_asset c) a && is_active c) (map (supersede a) cs) = None.
Proof.
  induction cs as [|c cs IH]; [reflexivity|].
  cbn [map List.find]. unfold supersede at 1 2.
  destruct (String.eqb (c_asset c) a && is_active c) eqn:E.
  - cbn. rewrite andb_false_r. exact IH.
  - rewrite E. exact IH.
Qed.

Lemma active_contract_activate cs new :
  active_contract (c_asset new) (activate cs new) = Some (with_status new active).
Proof.
  unfold active_contract, activate.
  induction (map (supersede (c_asset new)) cs) as [|c l IH] eqn:E in cs |- *.
  - cbn. rewrite String.eqb_refl. reflexivity.
  - destruct cs as [|c0 cs]; [discriminate E|]. injection E as <- <-.
    pose proof (find_supersede_none (c_asset new) (c0 :: cs)) as H.
    cbn [map List.find] in H. cbn [app List.find].
    destruct (String.eqb (c_asset (supersede (c_asset new) c0)) (c_asset new)
              && is_active (supersede (c_asset new) c0)); [discriminate H|].
    apply (IH cs). reflexivity.
Qed.

(** C3. A published proposal of a reachable state stays exactly as it is
    under every sequence of further operations, so its status never
    changes again; its resolution time is set; its target contract exists
    and has become active (it is active, or superseded by a later
    version); and every attempt to resolve it, publishing included, fails
    with [ProposalAlreadyResolved] and changes nothing.  A proposal
    becomes published only by approval, and in that step its target
    contract becomes the active contract of the asset. *)
Theorem published_is_terminal s :
  reachable s ->
  (forall pid p, proposals (gov s) !! pid = Some p -> p_status p = published ->
     (forall os, proposals (gov (fold_left run_op os s)) !! pid = Some p)
     /\ (exists t, p_resolved_at p = Some t)
     /\ (exists c, In c (contracts (gov s)) /\ c_asset c = p_asset p
                   /\ c_version c = p_proposed p /\ became_active c)
     /\ (forall a actor now,
           resolve_proposal s pid a actor now
           = (s, Failed (ProposalAlreadyResolved published))))
  /\ (forall pid a actor now s' p',
        resolve_proposal s pid a actor now = (s', Done p') ->
        p_status p' = published ->
        a = approve
        /\ proposals (gov s') !! pid = Some p'
        /\ p_resolved_at p' = Some now
        /\ contracts (gov s') !! length (contracts (gov s))
           = Some (with_status (proposed_contract p') active)
        /\ active_contract (p_asset p') (contracts (gov s'))
           = Some (with_status (proposed_contract p') active)).
Proof.
  intros Hr. split.
  - intros pid p Hl Hpub.
    destruct (reachable_terminal_ok s Hr pid p Hl) as [H1 H2].
    split; [intros os; apply run_ops_terminal_kept; [exact Hl|congruence]|].
    split; [apply H1; congruence|].
    split; [destruct (H2 Hpub) as (c & Hin & Ha & Hv & Hb); eauto|].
    intros a actor now. unfold Engine.resolve_proposal, run, resolve_step.
    rewrite Hl, Hpub. reflexivity.
  - intros pid a actor now s' p'.
    unfold Engine.resolve_proposal, run, resolve_step.
    destruct (proposals (gov s) !! pid) as [p|] eqn:Hl; [|discriminate].
    destruct (p_status p) eqn:Hst; try discriminate.
    intros [= <- <-] Hpub. cbn in Hpub.
    destruct a; try discriminate Hpub. cbn.
    split; [reflexivity|].
    split; [apply list_lookup_insert_eq; eapply lookup_lt_Some, Hl|].
    split; [reflexivity|].
    split; [apply activate_lookup_new|].
    apply (active_contract_activate (contracts (gov s)) (proposed_contract p)).
Qed.

(** *** A breaking publish and its withdrawal *)

Lemma in_flat_map_intro {A B} (g : A -> list B) l x y :
  In x l -> In y (g x) -> In y (flat_map g l).
Proof. intros H1 H2. apply List.in_flat_map. exists x. auto. Qed.

Lemma check_backward_removed (old new : gmap string Field) regs f fo :
  existsb is_live regs = true ->
  old !! f = Some fo -> f_required fo = true -> new !! f = None ->
  exists changes,
    check old new backward regs = breaking changes
    /\ In {| kind := field_removed; field := f |} changes.
Proof.
  intros Hl Ho Hreq Hn. unfold check. rewrite Hl.
  assert (Hin : In {| kind := field_removed; field := f |} (backward_changes old new)).
  { unfold backward_changes. apply List.in_or_app. left.
    apply (in_flat_map_intro _ _ (f, fo)).
    - apply list_elem_of_In, elem_of_map_to_list, Ho.
    - unfold backward_field. cbn. rewrite Hn, Hreq. left. reflexivity. }
  destruct (backward_changes old new) as [|c cs]; [destruct Hin|].
  eexists. split; [reflexivity|exact Hin].
Qed.

Lemma checker_regs_live g cur r :
  In r (registrations g) -> bound_to cur r = true -> reg_live r = true ->
  existsb is_live (checker_regs g cur) = true.
Proof.
  intros Hin Hb Hl. apply List.existsb_exists.
  eexists. split.
  - unfold checker_regs. apply List.in_map. apply List.filter_In. split; eassumption.
  - unfold is_live, reg_live in *. cbn. exact Hl.
Qed.

(** C4, with the premise that no proposal is open for the asset.  An
    asset has an active contract under backward mode whose schema
    requires a field, and an active registration is bound to that
    contract.  Publishing a version whose schema lacks the field returns
    [proposal_created]; the proposal is pending, its breaking-change list
    holds [field_removed] for the field, and no contract is activated.
    A withdrawal by the producer then moves the proposal to [withdrawn],
    and the contract that was active remains the asset's active
    contract. *)
Theorem breaking_publish_then_withdraw s asset version schema mode producer now
    cur f fo r :
  pending_for asset 0 (proposals (gov s)) = None ->
  active_contract asset (contracts (gov s)) = Some cur ->
  c_mode cur = backward ->
  c_schema cur !! f = Some fo -> f_required fo = true ->
  In r (registrations (gov s)) -> bound_to cur r = true -> reg_live r = true ->
  schema !! f = None ->
  exists s1 pid p,
    publish s asset version schema mode producer now
    = (s1, Done (proposal_created pid))
    /\ proposals (gov s1) !! pid = Some p
    /\ p_status p = pending
    /\ p_asset p = asset /\ p_proposed p = version /\ p_current p = c_version cur
    /\ In {| kind := field_removed; field := f |} (p_changes p)
    /\ contracts (gov s1) = contracts (gov s)
    /\ forall now2,
         exists s2 p2,
           resolve_proposal s1 pid withdraw (team_actor producer) now2
           = (s2, Done p2)
           /\ p_status p2 = withdrawn
           /\ proposals (gov s2) !! pid = Some p2
           /\ contracts (gov s2) = contracts (gov s)
           /\ active_contract asset (contracts (gov s2)) = Some cur.
Proof.
  intros Hpend Hact Hmode Hf Hreq Hin Hb Hl Hnew.
  destruct (check_backward_removed (c_schema cur) schema (checker_regs (gov s) cur)
              f fo (checker_regs_live _ _ _ Hin Hb Hl) Hf Hreq Hnew)
    as (changes & Hchk & Hch).
  unfold Engine.publish, run, publish_step.
  rewrite Hpend, Hact, Hmode, Hchk. unfold publish_propose.
  eexists _, _, _. split; [reflexivity|].
  assert (Hlook : forall (ps : list Proposal) q, (ps ++ [q]) !! length ps = Some q).
  { intros ps q. rewrite lookup_app_r by lia. rewrite Nat.sub_diag. reflexivity. }
  split; [apply Hlook|].
  do 4 (split; [reflexivity|]). split; [exact Hch|]. split; [reflexivity|].
  intros now2. unfold Engine.resolve_proposal, run, resolve_step.
  cbn [gov Engine.commit proposals set_proposals]. rewrite Hlook. cbn [p_status].
  eexists _, _. split; [reflexivity|]. split; [reflexivity|].
  split.
  { cbn. apply list_lookup_insert_eq. rewrite length_app. cbn. lia. }
  split; [reflexivity|]. exact Hact.
Qed.

(** *** Audit events *)






End EngineFacts.

(** ** The scenario *)

Section ScenarioFacts.

Import Checker Engine Scenario.
Local Open Scope string_scope.
Local Open Scope list_scope.
Local Open Scope nat_scope.

Lemma s4_reachable :
  Engine.reachable window threshold cooldown max_attempts net sink_up s4.
Proof. unfold s4, s3, s2, s1, step. repeat constructor. Qed.

Lemma s2_reachable :
  Engine.reachable window threshold cooldown max_attempts net sink_up s2.
Proof. unfold s2, s1, step. repeat constructor. Qed.

(** After the approval version 2 is active and version 1 superseded. *)
Example s4_contracts :
  map (fun c => (c_version c, c_status c)) (contracts (gov s4))
  = [("1.0.0", superseded); ("2.0.0", active)]
  /\ map p_status (proposals (gov s4)) = [published]
  /\ length (audit_log s4) = 4
  /\ map d_status (deliveries (disp s4)) = [delivered; delivered; delivered; delivered; delivered].
Proof. repeat split; vm_compute; reflexivity. Qed.

(** With a failing audit sink the same operations commit the same
    governance state, and nothing reaches the log. *)
Example failing_sink_does_not_block :
  let run_down := Engine.run_op window threshold cooldown max_attempts net sink_down in
  let t4 :=
    run_down
      (run_down
         (run_down
            (run_down init (op_publish "orders" "1.0.0" v1 backward "team-A" 0))
            (op_register "orders" "1.0.0" "team-B" 1))
         (op_publish "orders" "2.0.0" v2 backward "team-A" 2))
      (op_resolve 0 approve (team_actor "team-A") 3) in
  gov t4 = gov s4 /\ audit_log t4 = [].
Proof. split; vm_compute; reflexivity. Qed.

(** The invariant of C1 at the state after the approval. *)
Lemma at_most_one_active_contract_scenario :
  Engine.reachable window threshold cooldown max_attempts net sink_up s4
  /\ (forall asset, count_active asset (contracts (gov s4)) <= 1).
Proof.
  split; [exact s4_reachable|].
  exact (proj1 (at_most_one_active_contract window threshold cooldown max_attempts
                  net sink_up s4 s4_reachable)).
Defined.

(** C3 at the proposal of the scenario, once published. *)
Lemma published_is_terminal_scenario :
  Engine.reachable window threshold cooldown max_attempts net sink_up s4
  /\ exists p,
       proposals (gov s4) !! 0 = Some p
       /\ p_status p = published
       /\ (exists t, p_resolved_at p = Some t)
       /\ Engine.resolve_proposal threshold cooldown max_attempts net sink_up
            s4 0 approve (team_actor "team-A") 4
          = (s4, Failed (ProposalAlreadyResolved published)).
Proof.
  split; [exact s4_reachable|].
  destruct (published_is_terminal window threshold cooldown max_attempts net sink_up
              s4 s4_reachable) as [H _].
  destruct (proposals (gov s4) !! 0) as [p|] eqn:Hp; [|vm_compute in Hp; discriminate Hp].
  assert (Hs : p_status p = published).
  { vm_compute in Hp. injection Hp as <-. reflexivity. }
  exists p. split; [reflexivity|]. split; [exact Hs|].
  destruct (H 0 p Hp Hs) as (_ & Ht & _ & Hre).
  split; [exact Ht|]. apply Hre.
Defined.

(** C4 at the scenario of the specification, at the state in
    which version 1 is active and team-B is registered. *)
Lemma breaking_publish_then_withdraw_scenario :
  active_contract "orders" (contracts (gov s2)) = Some contract_v1
  /\ In registration_b (registrations (gov s2))
  /\ exists st pid p,
       Engine.publish window threshold cooldown max_attempts net sink_up
         s2 "orders" "2.0.0" v2 backward "team-A" 2
       = (st, Done (proposal_created pid))
       /\ proposals (gov st) !! pid = Some p
       /\ p_status p = pending
       /\ In {| kind := field_removed; field := "id" |} (p_changes p)
       /\ contracts (gov st) = contracts (gov s2)
       /\ exists st2 p2,
            Engine.resolve_proposal threshold cooldown max_attempts net sink_up
              st pid withdraw (team_actor "team-A") 3
            = (st2, Done p2)
            /\ p_status p2 = withdrawn
            /\ active_contract "orders" (contracts (gov st2)) = Some contract_v1.
Proof.
  split; [reflexivity|]. split; [left; reflexivity|].
  destruct (breaking_publish_then_withdraw window threshold cooldown max_attempts
              net sink_up s2 "orders" "2.0.0" v2 backward "team-A" 2
              contract_v1 "id" (int_field true) registration_b)
    as (st & pid & p & H1 & H2 & H3 & _ & _ & _ & H4 & H5 & H6);
    try reflexivity.
  { left. reflexivity. }
  exists st, pid, p. do 5 (split; [assumption|]).
  destruct (H6 3) as (st2 & p2 & G1 & G2 & _ & _ & G3).
  exists st2, p2. auto.
Defined.



(** C4, as stated, fails while a proposal is open for the asset.  In
    the state after version 2 was proposed, version 1 is still active,
    requires [id] and has team-B registered; publishing a further version
    without [id] is a conflict naming the open proposal, and creates no
    second one. *)
Lemma publish_conflicts_with_open_proposal :
  active_contract "orders" (contracts (gov s3)) = Some contract_v1
  /\ c_mode contract_v1 = backward
  /\ c_schema contract_v1 !! "id" = Some (int_field true)
  /\ f_required (int_field true) = true
  /\ In registration_b (registrations (gov s3))
  /\ bound_to contract_v1 registration_b = true
  /\ reg_live registration_b = true
  /\ v2 !! "id" = None
  /\ Engine.publish window threshold cooldown max_attempts net sink_up
       s3 "orders" "3.0.0" v2 backward "team-A" 5
     = (s3, Failed (ConflictError 0))
  /\ map p_status (proposals (gov s3)) = [pending].
Proof.
  repeat split; try reflexivity. left. reflexivity.
Qed.

End ScenarioFacts.

(** * Further properties of the sources *)

(** ** The list parsers of [config.py] *)

Section ParserFacts.

Import PyStr Config.

Lemma clean_entry_strip e : clean_entry e -> strip e = e /\ truthy (strip e) = true.
Proof.
  intros (Hne & Hl & Ht & _).
  assert (E : strip e = e) by (apply strip_id; assumption).
  rewrite E. split; [reflexivity|]. apply truthy_nonempty, Hne.
Qed.

Lemma strip_filter_clean l :
  Forall clean_entry l ->
  map (fun d => strip d) (List.filter (fun d => truthy (strip d)) l) = l.
Proof.
  induction 1 as [|e l He _ IH]; [reflexivity|].
  destruct (clean_entry_strip e He) as [E T].
  cbn [List.filter]. rewrite T. cbn [map]. rewrite E, IH. reflexivity.
Qed.

Lemma comprehension_join_clean l :
  Forall clean_entry l ->
  map (fun d => strip d)
      (List.filter (fun d => truthy (strip d)) (split comma (join [comma] l))) = l.
Proof.
  intros Hl. destruct l as [|e l]; [reflexivity|].
  rewrite split_join.
  - apply strip_filter_clean, Hl.
  - discriminate.
  - eapply List.Forall_impl; [|exact Hl]. intros w (_ & _ & _ & H). exact H.
Qed.

Lemma comprehension_clean s :
  Forall clean_entry
    (map (fun d => strip d) (List.filter (fun d => truthy (strip d)) (split comma s))).
Proof.
  rewrite map_strip_filter. apply List.Forall_forall. intros e He.
  apply List.filter_In in He. destruct He as [He Ht].
  apply List.in_map_iff in He. destruct He as (w & <- & Hw).
  split; [apply truthy_nonempty, Ht|].
  split; [apply strip_no_lead|]. split; [apply strip_no_trail|].
  intros Hc. apply strip_incl in Hc. exact (split_no_sep _ _ _ Hw Hc).
Qed.

(** X1. [parse_cors_origins] turns a comma-separated string into exactly the
    non-empty stripped pieces of its split at the commas.  For every
    writing of the string as a join of comma-free pieces the result is
    what [kept_entries] keeps of them, and nothing else: a piece of
    whitespace only gives no origin, every other piece gives, in its
    place, its text between the whitespace around it.  Every origin
    returned is non-empty, has no whitespace at either end and holds no
    comma; a string gives the empty list exactly when it holds
    whitespace and commas only; a list value is returned as it is. *)
Theorem parse_cors_origins_spec :
  (forall s,
      parse_cors_origins (RawStr s) = List.filter truthy (map strip (split comma s))
      /\ Forall clean_entry (parse_cors_origins (RawStr s)))
  /\ (forall s, exists pieces,
        pieces <> [] /\ Forall (fun w => ~ In comma w) pieces
        /\ s = join [comma] pieces)
  /\ (forall pieces es,
        pieces <> [] -> Forall (fun w => ~ In comma w) pieces ->
        kept_entries pieces es
        <-> parse_cors_origins (RawStr (join [comma] pieces)) = es)
  /\ (forall s, Forall (fun c => is_space c = true \/ c = comma) s <->
        parse_cors_origins (RawStr s) = [])
  /\ (forall l, parse_cors_origins (RawSeq l) = l).
Proof.
  split; [|split; [|split; [|split]]].
  - intros s. split; [apply map_strip_filter|apply comprehension_clean].
  - apply comma_pieces.
  - intros pieces es. apply comprehension_join_kept.
  - intros s. split; [apply (parse_domains_blank s)|apply comprehension_nil_blank].
  - reflexivity.
Qed.

(** Two origins between blanks, an empty piece in between. *)
Lemma parse_cors_origins_kept :
  kept_entries
    [str_of "http://localhost:3000"; []; str_of "  https://app.example"]
    [str_of "http://localhost:3000"; str_of "https://app.example"]
  /\ parse_cors_origins (RawStr (str_of "http://localhost:3000,,  https://app.example"))
     = [str_of "http://localhost:3000"; str_of "https://app.example"].
Proof.
  assert (K : kept_entries
                [str_of "http://localhost:3000"; []; str_of "  https://app.example"]
                [str_of "http://localhost:3000"; str_of "https://app.example"]).
  { apply kept_keep.
    { exists [], []. repeat split; try discriminate; repeat constructor. }
    apply kept_skip; [constructor|].
    apply kept_keep; [|constructor].
    exists [32%N; 32%N], []. repeat split; try discriminate; repeat constructor. }
  split; [exact K|].
  destruct parse_cors_origins_spec as (_ & _ & H & _).
  apply (H [str_of "http://localhost:3000"; []; str_of "  https://app.example"]).
  - discriminate.
  - repeat constructor; vm_compute; intuition discriminate.
  - exact K.
Defined.

(** X2. A list of clean entries, written as a comma-separated string, is
    parsed back to the same list by both parsers: the string form and the
    list form of a setting are interchangeable. *)
Theorem parse_join_round_trip (l : list pystr) :
  Forall clean_entry l ->
  parse_webhook_allowed_domains (RawStr (join [comma] l))
  = parse_webhook_allowed_domains (RawSeq l)
  /\ parse_cors_origins (RawStr (join [comma] l)) = parse_cors_origins (RawSeq l).
Proof.
  intros Hl. split; apply comprehension_join_clean, Hl.
Qed.

Lemma parse_join_round_trip_example :
  Forall clean_entry [str_of "a.example"; str_of "b.example"]
  /\ parse_webhook_allowed_domains (RawStr (str_of "a.example,b.example"))
     = [str_of "a.example"; str_of "b.example"].
Proof.
  assert (H : Forall clean_entry [str_of "a.example"; str_of "b.example"]).
  { repeat constructor; try discriminate; vm_compute; intuition discriminate. }
  split; [exact H|].
  exact (proj1 (parse_join_round_trip [str_of "a.example"; str_of "b.example"] H)).
Defined.

(** X3. Parsing is stable: the parsed list, joined with commas and parsed
    again, is the parsed list.  So a value normalised once (blanks and
    empty entries dropped) is never changed by a further pass. *)
Theorem parse_idempotent (s : pystr) :
  parse_webhook_allowed_domains
    (RawStr (join [comma] (parse_webhook_allowed_domains (RawStr s))))
  = parse_webhook_allowed_domains (RawStr s)
  /\ parse_cors_origins (RawStr (join [comma] (parse_cors_origins (RawStr s))))
     = parse_cors_origins (RawStr s).
Proof.
  split; apply comprehension_join_clean, comprehension_clean.
Qed.

End ParserFacts.

(** ** The messages of [validate_production_config] *)

Section ValidationMessages.

Import PyStr Config.

Lemma is_prefix_app a b : is_prefix a (a ++ b) = true.
Proof.
  induction a as [|x a IH]; [reflexivity|].
  simpl. rewrite N.eqb_refl. exact IH.
Qed.

Lemma is_infix_app p a q : is_infix a (p ++ a ++ q) = true.
Proof.
  induction p as [|x p IH].
  - simpl. destruct (a ++ q) eqn:E; simpl; rewrite <- ?E, is_prefix_app; reflexivity.
  - simpl. rewrite IH. apply orb_true_r.
Qed.

(** X4. The error a refused configuration is given.  With the built-in
    secret the message is the one about [SESSION_SECRET_KEY] and names the
    environment, whatever else is wrong.  Otherwise the environment is
    [production], and the message, after its header, reports every
    violated rule and no other: the text about [AUTO_CREATE_TABLES]
    occurs exactly when that flag is set, the text about [AUTH_DISABLED]
    exactly when authentication is disabled, the text about
    [RATE_LIMIT_ENABLED] exactly when rate limiting is off. *)
Theorem validation_error_message (self : Settings) (msg : pystr) :
  validate_production_config self = Raise (ValueError msg) ->
  (session_secret_key self = DEFAULT_SESSION_SECRET
   /\ msg = secret_message (environment self)
   /\ is_infix (environment self) msg = true)
  \/ (session_secret_key self <> DEFAULT_SESSION_SECRET
      /\ environment self = str_of "production"
      /\ is_prefix production_header msg = true
      /\ is_infix err_auto_create msg = auto_create_tables self
      /\ is_infix err_auth_disabled msg = auth_disabled self
      /\ is_infix err_rate_limit msg = negb (rate_limit_enabled self)).
Proof.
  unfold validate_production_config, str_eqb.
  destruct (negb (bool_decide (environment self = str_of "development")
                  || bool_decide (environment self = str_of "test"))) eqn:Henv.
  - destruct (decide (session_secret_key self = DEFAULT_SESSION_SECRET)) as [Hsec|Hsec].
    + rewrite (bool_decide_eq_true_2 _ Hsec). cbn [andb].
      intros [= <-]. left. split; [exact Hsec|]. split; [reflexivity|].
      unfold secret_message. apply is_infix_app.
    + rewrite (bool_decide_eq_false_2 _ Hsec). cbn [andb].
      destruct (decide (environment self = str_of "production")) as [Hprod|Hprod];
        [rewrite (bool_decide_eq_true_2 _ Hprod)
        |rewrite (bool_decide_eq_false_2 _ Hprod); discriminate].
      cbn [negb]. unfold production_errors.
      intros H. right. split; [exact Hsec|]. split; [exact Hprod|].
      destruct (auto_create_tables self), (auth_disabled self),
        (rate_limit_enabled self); cbn in H; try discriminate H;
        injection H as <-; vm_compute; repeat split; reflexivity.
  - cbn [andb].
    destruct (decide (environment self = str_of "production")) as [Hprod|Hprod];
      [|rewrite (bool_decide_eq_false_2 _ Hprod); discriminate].
    exfalso. rewrite Hprod in Henv. vm_compute in Henv. discriminate Henv.
Qed.

Lemma validation_error_message_example :
  exists msg,
    validate_production_config careless_production = Raise (ValueError msg)
    /\ is_infix err_auto_create msg = true
    /\ is_infix err_auth_disabled msg = true
    /\ is_infix err_rate_limit msg = true.
Proof.
  eexists. split; [reflexivity|].
  destruct (validation_error_message careless_production _ eq_refl)
    as [(H & _)|(_ & _ & _ & H1 & H2 & H3)].
  - vm_compute in H. discriminate H.
  - exact (conj H1 (conj H2 H3)).
Defined.

End ValidationMessages.

(** ** Levels set by [configure_logging] *)

Section LevelFacts.

Import PyStr Logging.

Lemma named_level_set n lv st m :
  named_level (set_named_level n lv st) !! m
  = if decide (n = m) then Some lv else named_level st !! m.
Proof. unfold set_named_level. cbn. apply lookup_insert. Qed.

(** X5. With a level name that [logging] knows (after [upper]) the call
    returns, the root logger has that level, the loggers [uvicorn.access],
    [httpx] and [httpcore] are at [WARNING], and the level of every other
    named logger is what it was.  With an unknown name the call raises
    [ValueError] after the handler has been replaced: the root level and
    all named loggers are left as they were, the three noisy loggers not
    quieted. *)
Theorem configure_logging_levels
    (upper : pystr -> pystr) (level fmt : pystr) (st : LogState) :
  let st' := fst (configure_logging upper level fmt st) in
  let r := snd (configure_logging upper level fmt st) in
  match nameToLevel (upper level) with
  | Some lv =>
      r = Ok tt
      /\ root_level st' = lv
      /\ named_level st' !! str_of "uvicorn.access" = Some WARNING
      /\ named_level st' !! str_of "httpx" = Some WARNING
      /\ named_level st' !! str_of "httpcore" = Some WARNING
      /\ (forall n, n <> str_of "uvicorn.access" -> n <> str_of "httpx" ->
            n <> str_of "httpcore" -> named_level st' !! n = named_level st !! n)
  | None =>
      (exists msg, r = Raise (ValueError msg))
      /\ root_level st' = root_level st
      /\ named_level st' = named_level st
      /\ root_handlers st' = [new_handler fmt st]
  end.
Proof.
  unfold configure_logging. destruct (nameToLevel (upper level)) as [lv|]; cbn [fst snd].
  - split; [reflexivity|]. split; [reflexivity|].
    rewrite !named_level_set.
    split; [reflexivity|]. split; [reflexivity|]. split; [reflexivity|].
    intros n H1 H2 H3. rewrite !named_level_set.
    repeat (destruct (decide _) as [E|_]; [congruence|]). reflexivity.
  - split; [eexists; reflexivity|]. repeat split; reflexivity.
Qed.

(** [test_text_format] and [test_json_format]: the level of the root
    logger after the call, and an unknown level name. *)
Example configure_logging_test_levels :
  let st0 := {| root_handlers := []; root_level := WARNING;
                named_level := ∅; next_id := 0 |} in
  root_level (fst (configure_logging (fun s => s) (str_of "DEBUG") (str_of "text") st0))
  = 10%nat
  /\ root_level (fst (configure_logging (fun s => s) (str_of "WARNING") (str_of "json") st0))
     = 30%nat
  /\ snd (configure_logging (fun s => s) (str_of "VERBOSE") (str_of "json") st0)
     = Raise (ValueError (str_of "Unknown level: 'VERBOSE'")).
Proof. repeat split; reflexivity. Qed.

End LevelFacts.

(** ** Running migration 015 again, and when it fails *)

Section MigrationRerun.

Import Migration015.
Local Open Scope string_scope.
Local Open Scope list_scope.

Lemma add_value_again new neighbor labels labels' :
  add_value_if_not_exists_after new neighbor labels = inr labels' ->
  add_value_if_not_exists_after new neighbor labels' = inr labels'.
Proof.
  intros H. destruct (add_value_spec _ _ _ _ H) as (Hin & _).
  unfold add_value_if_not_exists_after.
  rewrite (proj2 (has_label_In new labels') Hin). reflexivity.
Qed.

(** X7. The migration can be run again: on the database a successful upgrade
    left, a second upgrade succeeds and changes nothing, also after a
    downgrade in between (which removes no value). *)
Theorem upgrade_idempotent (db db' : Database) :
  upgrade db = inr db' ->
  upgrade db' = inr db' /\ upgrade (downgrade db') = inr db'.
Proof.
  intros H. assert (G : upgrade db' = inr db'); [|split; exact G].
  revert H. unfold upgrade, _is_sqlite. destruct (dialect db) eqn:Hd.
  - intros [= <-]. rewrite Hd. reflexivity.
  - destruct (add_value_if_not_exists_after "published" "approved" (proposalstatus db))
      as [e|ps] eqn:Hp; [discriminate|].
    destruct (add_value_if_not_exists_after "dead_lettered" "failed"
                (webhookdeliverystatus db)) as [e|ws] eqn:Hw; [discriminate|].
    intros [= <-]. cbn [dialect proposalstatus webhookdeliverystatus].
    rewrite (add_value_again _ _ _ _ Hp), (add_value_again _ _ _ _ Hw). reflexivity.
Qed.

Lemma upgrade_idempotent_before_015 :
  exists db',
    upgrade before_015 = inr db' /\ upgrade db' = inr db'
    /\ upgrade (downgrade db') = inr db'.
Proof.
  eexists. split; [reflexivity|]. exact (upgrade_idempotent before_015 _ eq_refl).
Defined.

Lemma not_has_label l labels : has_label l labels = false <-> ~ In l labels.
Proof.
  rewrite <- has_label_In. destruct (has_label l labels); split; congruence.
Qed.

(** X8. Two ways the upgrade fails on a PostgreSQL database that has the
    two enum types.  If the proposal statuses hold neither [published]
    nor [approved], the first statement fails, with the error that
    [approved] is not an existing label, whatever the delivery statuses
    hold.  If the first statement goes through and the delivery statuses
    hold neither [dead_lettered] nor [failed], the second fails, with
    the error naming [failed].  On SQLite the upgrade executes no
    statement and returns the database as it is, whatever the two
    lists hold. *)
Theorem upgrade_failure_cases (db : Database) :
  (dialect db = sqlite -> upgrade db = inr db)
  /\ (dialect db = postgresql ->
      ~ In "published" (proposalstatus db) ->
      ~ In "approved" (proposalstatus db) ->
      upgrade db = inl (not_an_existing_enum_label "approved"))
  /\ (dialect db = postgresql ->
      In "published" (proposalstatus db) \/ In "approved" (proposalstatus db) ->
      ~ In "dead_lettered" (webhookdeliverystatus db) ->
      ~ In "failed" (webhookdeliverystatus db) ->
      upgrade db = inl (not_an_existing_enum_label "failed")).
Proof.
  unfold upgrade, _is_sqlite, add_value_if_not_exists_after.
  rewrite <- !not_has_label, <- !has_label_In.
  split; [intros ->; reflexivity|].
  split.
  - intros -> -> ->. reflexivity.
  - intros -> H -> ->.
    destruct (has_label "published" (proposalstatus db)); [reflexivity|].
    destruct (has_label "approved" (proposalstatus db)); [reflexivity|].
    destruct H; discriminate.
Qed.

(** The proposal statuses of the specification alone, without
    [approved]: the first statement fails. *)
Lemma upgrade_failure_cases_example :
  upgrade {| dialect := postgresql;
             proposalstatus := ["pending"; "withdrawn"; "expired"; "rejected"];
             webhookdeliverystatus := ["pending"; "delivered"; "failed"] |}
  = inl (not_an_existing_enum_label "approved")
  /\ upgrade {| dialect := postgresql;
                proposalstatus := ["pending"; "approved"];
                webhookdeliverystatus := ["pending"; "delivered"] |}
     = inl (not_an_existing_enum_label "failed").
Proof.
  split.
  - apply (proj1 (proj2 (upgrade_failure_cases _)));
      [reflexivity| |]; simpl; intuition discriminate.
  - apply (proj2 (proj2 (upgrade_failure_cases _)));
      [reflexivity|right; simpl; tauto| |]; simpl; intuition discriminate.
Defined.

Lemma add_value_order new neighbor labels labels' :
  add_value_if_not_exists_after new neighbor labels = inr labels' ->
  sublist labels labels' /\ (NoDup labels -> NoDup labels').
Proof.
  unfold add_value_if_not_exists_after.
  destruct (has_label new labels) eqn:Hn; [intros [= <-]; split; [reflexivity|auto]|].
  destruct (has_label neighbor labels) eqn:Hnb; [|discriminate].
  intros [= <-]. apply has_label_In in Hnb. apply not_has_label in Hn.
  destruct (insert_after_split neighbor new labels Hnb) as (pre & post & E1 & E2).
  rewrite E2. subst labels. split.
  - apply sublist_app; [reflexivity|].
    apply sublist_skip, sublist_cons. reflexivity.
  - intros Hnd. rewrite <- list_elem_of_In in Hn.
    apply NoDup_app. apply NoDup_app in Hnd. destruct Hnd as (H1 & H2 & H3).
    rewrite !NoDup_cons in *. rewrite elem_of_app, !elem_of_cons in Hn.
    destruct H3 as [H3 H4]. split; [exact H1|]. split.
    + intros x Hx. specialize (H2 x Hx). rewrite !elem_of_cons in *.
      intros [->|[->|Hin]]; intuition auto.
    + rewrite !elem_of_cons. intuition auto.
Qed.

(** X9. The upgrade keeps the order of the labels that were there (each type
    before is a subsequence of the type after), and creates no duplicate
    label. *)
Theorem upgrade_keeps_order (db db' : Database) :
  upgrade db = inr db' ->
  sublist (proposalstatus db) (proposalstatus db')
  /\ sublist (webhookdeliverystatus db) (webhookdeliverystatus db')
  /\ (NoDup (proposalstatus db) -> NoDup (proposalstatus db'))
  /\ (NoDup (webhookdeliverystatus db) -> NoDup (webhookdeliverystatus db')).
Proof.
  unfold upgrade, _is_sqlite. destruct (dialect db).
  - intros [= <-]. repeat split; auto; reflexivity.
  - destruct (add_value_if_not_exists_after "published" "approved" (proposalstatus db))
      as [e|ps] eqn:Hp; [discriminate|].
    destruct (add_value_if_not_exists_after "dead_lettered" "failed"
                (webhookdeliverystatus db)) as [e|ws] eqn:Hw; [discriminate|].
    intros [= <-]. cbn [proposalstatus webhookdeliverystatus].
    destruct (add_value_order _ _ _ _ Hp) as [P1 P2].
    destruct (add_value_order _ _ _ _ Hw) as [W1 W2].
    auto.
Qed.

Lemma upgrade_keeps_order_before_015 :
  exists db',
    upgrade before_015 = inr db'
    /\ sublist (proposalstatus before_015) (proposalstatus db')
    /\ NoDup (proposalstatus db').
Proof.
  eexists. split; [reflexivity|].
  destruct (upgrade_keeps_order before_015 _ eq_refl) as (H1 & _ & H3 & _).
  split; [exact H1|]. apply H3. cbn.
  repeat (apply NoDup_cons_2;
          [rewrite ?elem_of_cons, elem_of_nil; intuition discriminate|]).
  apply NoDup_nil_2.
Defined.

End MigrationRerun.

(** ** What [format] writes is read back in full *)

Section RoundTrip.

Import PyStr Json Logging.

Lemma decode_hex4_hex4 n :
  n < 65536 ->
  decode_hex4 (hexdigit (n / 4096 mod 16)) (hexdigit (n / 256 mod 16))
              (hexdigit (n / 16 mod 16)) (hexdigit (n mod 16)) = Some n.
Proof.
  intros H. unfold decode_hex4. rewrite !hexval_hexdigit by apply mod16_lt.
  f_equal.
  pose proof (N.div_mod n 16 ltac:(discriminate)) as E0.
  pose proof (N.div_mod (n / 16) 16 ltac:(discriminate)) as E1.
  pose proof (N.div_mod (n / 256) 16 ltac:(discriminate)) as E2.
  rewrite (N.Div0.div_div n 16 16) in E1.
  rewrite (N.Div0.div_div n 256 16) in E2.
  change (16 * 16) with 256 in E1. change (256 * 16) with 4096 in E2.
  assert (E3 : n / 4096 mod 16 = n / 4096).
  { apply N.mod_small. apply N.Div0.div_lt_upper_bound. exact H. }
  rewrite E3. lia.
Qed.

Lemma land_low_zero a b : b < 1024 -> N.land (a * 1024) b = 0.
Proof.
  intros Hb. apply N.bits_inj_0. intros i. rewrite N.land_spec.
  change 1024 with (2 ^ 10) in *.
  destruct (N.lt_ge_cases i 10) as [Hi|Hi].
  - rewrite N.mul_pow2_bits_low by exact Hi. reflexivity.
  - destruct (N.eq_dec b 0) as [->|Hb0].
    + rewrite N.bits_0. apply andb_false_r.
    + rewrite (N.bits_above_log2 b i); [apply andb_false_r|].
      apply N.lt_le_trans with 10; [|exact Hi].
      apply N.log2_lt_pow2; [lia|exact Hb].
Qed.

Lemma lor_low a b : b < 1024 -> N.lor (a * 1024) b = a * 1024 + b.
Proof.
  intros Hb. pose proof (land_low_zero a b Hb) as H.
  rewrite <- (N.lxor_lor _ _ H). symmetry. apply N.add_nocarry_lxor, H.
Qed.

(** The surrogate pair written for a code point above the basic plane. *)
Lemma surrogate_pair c :
  65536 <= c -> c < 1114112 ->
  let n := c - 65536 in
  let s1 := N.lor 55296 (N.land (N.shiftr n 10) 1023) in
  let s2 := N.lor 56320 (N.land n 1023) in
  s1 = 55296 + n / 1024 /\ s2 = 56320 + n mod 1024
  /\ n / 1024 < 1024 /\ combine s1 s2 = c.
Proof.
  intros H1 H2 n s1 s2.
  assert (Hlt : n / 1024 < 1024).
  { apply N.Div0.div_lt_upper_bound. subst n. lia. }
  assert (Hm : n mod 1024 < 1024) by (apply N.mod_lt; discriminate).
  assert (Hhi : N.land (N.shiftr n 10) 1023 = n / 1024).
  { rewrite N.shiftr_div_pow2. change 1023 with (N.ones 10).
    rewrite N.land_ones. change (2 ^ 10) with 1024. apply N.mod_small, Hlt. }
  assert (Hlo : N.land n 1023 = n mod 1024).
  { change 1023 with (N.ones 10). rewrite N.land_ones. reflexivity. }
  assert (E1 : s1 = 55296 + n / 1024).
  { subst s1. rewrite Hhi. change 55296 with (54 * 1024). apply lor_low, Hlt. }
  assert (E2 : s2 = 56320 + n mod 1024).
  { subst s2. rewrite Hlo. change 56320 with (55 * 1024). apply lor_low, Hm. }
  split; [exact E1|]. split; [exact E2|]. split; [exact Hlt|].
  unfold combine. rewrite E1, E2.
  replace (55296 + n / 1024 - 55296) with (n / 1024) by lia.
  replace (56320 + n mod 1024 - 56320) with (n mod 1024) by lia.
  rewrite N.shiftl_mul_pow2. change (2 ^ 10) with 1024.
  rewrite (lor_low _ _ Hm).
  pose proof (N.div_mod n 1024 ltac:(discriminate)) as E. subst n. lia.
Qed.

(** The decoder reads the escape of a scalar value back as that value. *)
Lemma scan_escape_char c tail :
  scalar c = true -> scanstring (escape_char c ++ tail) = push c (scanstring tail).
Proof.
  intros Hs. unfold escape_char.
  destruct (N.eqb_spec c backslash) as [->|Hb]; [reflexivity|].
  destruct (N.eqb_spec c dquote) as [->|Hq]; [reflexivity|].
  destruct ((32 <=? c) && (c <=? 126)) eqn:Hp.
  { cbn [app scanstring].
    rewrite (proj2 (N.eqb_neq _ _) Hq), (proj2 (N.eqb_neq _ _) Hb).
    apply andb_prop in Hp. destruct Hp as [Hp _]. apply N.leb_le in Hp.
    rewrite (proj2 (N.ltb_ge _ _) Hp). reflexivity. }
  destruct (N.eqb_spec c 8) as [->|_]; [reflexivity|].
  destruct (N.eqb_spec c 12) as [->|_]; [reflexivity|].
  destruct (N.eqb_spec c 10) as [->|_]; [reflexivity|].
  destruct (N.eqb_spec c 13) as [->|_]; [reflexivity|].
  destruct (N.eqb_spec c 9) as [->|_]; [reflexivity|].
  unfold scalar in Hs.
  destruct (N.ltb_spec c 65536) as [Hlt|Hge].
  - unfold hex4. cbn [app scanstring].
    change (backslash =? dquote) with false. change (backslash =? backslash) with true.
    change (117 =? 117) with true. cbv iota.
    rewrite (decode_hex4_hex4 c Hlt).
    replace (is_high c) with false; [reflexivity|].
    symmetry. unfold is_high. apply andb_false_iff.
    apply orb_prop in Hs. destruct Hs as [Hs|Hs].
    + apply N.ltb_lt in Hs. left. apply N.leb_gt. exact Hs.
    + apply andb_prop in Hs. destruct Hs as [Hs _]. apply N.ltb_lt in Hs.
      right. apply N.leb_gt. lia.
  - assert (Hmax : c < 1114112).
    { apply orb_prop in Hs. destruct Hs as [Hs|Hs].
      - apply N.ltb_lt in Hs. lia.
      - apply andb_prop in Hs. destruct Hs as [_ Hs]. apply N.ltb_lt in Hs. exact Hs. }
    destruct (surrogate_pair c Hge Hmax) as (E1 & E2 & Hhi & Hc).
    cbv zeta in *.
    set (s1 := N.lor 55296 (N.land (N.shiftr (c - 65536) 10) 1023)) in *.
    set (s2 := N.lor 56320 (N.land (c - 65536) 1023)) in *.
    clearbody s1 s2.
    pose proof (N.le_0_l ((c - 65536) / 1024)) as P1.
    pose proof (N.le_0_l ((c - 65536) mod 1024)) as P2.
    assert (Hm : (c - 65536) mod 1024 < 1024) by (apply N.mod_lt; discriminate).
    assert (H1 : s1 < 65536) by lia.
    assert (H2 : s2 < 65536) by lia.
    assert (Hhigh : is_high s1 = true).
    { unfold is_high. apply andb_true_intro. split; apply N.leb_le; lia. }
    assert (Hlow : is_low s2 = true).
    { unfold is_low. apply andb_true_intro. split; apply N.leb_le; lia. }
    unfold hex4. cbn [app scanstring].
    change (backslash =? dquote) with false. change (backslash =? backslash) with true.
    change (117 =? 117) with true. cbn [andb]. cbv iota.
    rewrite (decode_hex4_hex4 s1 H1), Hhigh, (decode_hex4_hex4 s2 H2), Hlow, Hc.
    reflexivity.
Qed.

Lemma scan_scalar s rest :
  scalar_str s -> scanstring (escape s ++ dquote :: rest) = Some (s, rest).
Proof.
  induction 1 as [|c s Hc _ IH]; [reflexivity|].
  cbn [escape]. rewrite <- app_assoc, (scan_escape_char c _ Hc), IH. reflexivity.
Qed.

Lemma parse_one_member_scalar k v rest :
  scalar_str k -> scalar_str v ->
  forall fuel,
    parse_members (S fuel) (dump_item (k, v) ++ rest)
    = match skip_ws rest with
      | d :: r5 =>
          if d =? 125 then Some ([(k, v)], r5)
          else if d =? 44 then
            match parse_members fuel (skip_ws r5) with
            | Some (ms, rest') => Some ((k, v) :: ms, rest')
            | None => None
            end
          else None
      | [] => None
      end.
Proof.
  intros Hk Hv fuel. rewrite dump_item_shape.
  cbn [parse_members]. change (dquote =? dquote) with true. cbn [negb].
  rewrite (scan_scalar k _ Hk).
  change (skip_ws (58 :: 32 :: dquote :: escape v ++ dquote :: rest))
    with (58 :: 32 :: dquote :: escape v ++ dquote :: rest).
  change (58 =? 58) with true. cbn [negb].
  change (skip_ws (32 :: dquote :: escape v ++ dquote :: rest))
    with (dquote :: escape v ++ dquote :: rest).
  change (dquote =? dquote) with true. cbn [negb].
  rewrite (scan_scalar v _ Hv). reflexivity.
Qed.

Lemma parse_members_scalar entry :
  entry <> [] -> Forall scalar_item entry ->
  forall fuel tail, (length entry <= fuel)%nat ->
    parse_members fuel (join [44; 32] (map dump_item entry) ++ 125 :: tail)
    = Some (entry, tail).
Proof.
  induction entry as [|[k v] entry IH]; [congruence|].
  intros _ Hp fuel tail Hf. inversion Hp as [|? ? [Hk Hv] Hrest]; subst.
  cbn [fst snd] in Hk, Hv.
  destruct fuel as [|fuel]; [simpl in Hf; lia|].
  destruct entry as [|kv2 entry].
  - change (join [44; 32] (map dump_item [(k, v)])) with (dump_item (k, v)).
    rewrite (parse_one_member_scalar k v _ Hk Hv). reflexivity.
  - rewrite join_items_cons, <- app_assoc.
    rewrite (parse_one_member_scalar k v _ Hk Hv).
    pose proof (IH ltac:(discriminate) Hrest fuel tail ltac:(simpl in *; lia)) as Hms.
    destruct (join_items_head kv2 entry) as [r Hr].
    rewrite Hr in *.
    change (skip_ws ((44 :: 32 :: dquote :: r) ++ 125 :: tail))
      with (44 :: 32 :: dquote :: r ++ 125 :: tail).
    change (44 =? 125) with false. change (44 =? 44) with true. cbv iota.
    change (skip_ws (32 :: dquote :: r ++ 125 :: tail))
      with (dquote :: r ++ 125 :: tail).
    change ((dquote :: r) ++ 125 :: tail) with (dquote :: r ++ 125 :: tail) in Hms.
    rewrite Hms. reflexivity.
Qed.

(** [loads] reads back exactly the dictionary [dumps] wrote, keys and
    values, when its strings are made of scalar values. *)
Lemma loads_dumps_scalar entry :
  Forall scalar_item entry -> loads (dumps entry) = Some entry.
Proof.
  intros Hp. destruct entry as [|kv entry]; [reflexivity|].
  pose proof (parse_members_scalar (kv :: entry) ltac:(discriminate) Hp
                (length (dumps (kv :: entry))) [] (dumps_length _)) as Hms.
  destruct (join_items_head kv entry) as [r Hr].
  unfold loads. remember (length (dumps (kv :: entry))) as n eqn:En. clear En.
  unfold dumps. rewrite Hr in *.
  change (skip_ws ([123] ++ (dquote :: r) ++ [125]))
    with (123 :: dquote :: r ++ [125]).
  change (123 =? 123) with true. cbn [negb].
  change (skip_ws (dquote :: r ++ [125])) with (dquote :: r ++ [125]).
  change (dquote =? 125) with false. cbv iota.
  change ((dquote :: r) ++ [125]) with (dquote :: r ++ [125]) in Hms.
  rewrite Hms. reflexivity.
Qed.

Lemma scalar_str_of_ascii : forall s,
  Forall (fun c => c < 128) s -> scalar_str s.
Proof.
  intros s H. eapply List.Forall_impl; [|exact H].
  intros c Hc. unfold scalar. apply orb_true_intro. left. apply N.ltb_lt.
  eapply N.lt_trans; [exact Hc|reflexivity].
Qed.

(** X6. Nothing of a record is lost in its log line.  When [getMessage]
    returns and the timestamp, the level name, the logger name, the
    message and the formatted exception hold scalar values only (no lone
    surrogates), [json.loads] reads the line back as exactly the
    dictionary [log_entry]: every value, with its newlines, quotes and
    non-ASCII characters, is what it was. *)
Theorem format_round_trip
    (percent : pystr -> list PyVal -> PyResult pystr)
    (formatException : ExcInfo -> pystr) (now_iso : pystr)
    (record : LogRecord) (message : pystr) :
  getMessage percent record = Ok message ->
  scalar_str now_iso -> scalar_str (levelname record) ->
  scalar_str (name record) -> scalar_str message ->
  (forall ei, exc_info record = Some ei -> scalar_str (formatException ei)) ->
  exists out,
    format percent formatException now_iso record = Ok out
    /\ loads out = Some (log_entry formatException now_iso record message).
Proof.
  intros Hm Hn Hl Hna Hmsg Hexc. unfold format. rewrite Hm.
  eexists. split; [reflexivity|]. apply loads_dumps_scalar.
  assert (E : forall t l n m x,
             dict_set [(str_of "timestamp", t); (str_of "level", l);
                       (str_of "logger", n); (str_of "message", m)]
                      (str_of "exc_info") x
             = [(str_of "timestamp", t); (str_of "level", l);
                (str_of "logger", n); (str_of "message", m);
                (str_of "exc_info", x)]) by reflexivity.
  assert (K : forall k, Forall (fun c => c < 128) (str_of k) -> scalar_str (str_of k))
    by (intros k; apply scalar_str_of_ascii).
  assert (Hbase : Forall scalar_item
            [(str_of "timestamp", now_iso); (str_of "level", levelname record);
             (str_of "logger", name record); (str_of "message", message)]).
  { repeat (apply Forall_cons; split; [split; cbn [fst snd]; try assumption;
                                       apply K; repeat constructor|]).
    apply Forall_nil_2. }
  unfold log_entry. destruct (exc_info record) as [ei|]; [|exact Hbase].
  destruct (ei_value ei); [|exact Hbase].
  rewrite E.
  change [(str_of "timestamp", now_iso); (str_of "level", levelname record);
          (str_of "logger", name record); (str_of "message", message);
          (str_of "exc_info", formatException ei)]
    with ([(str_of "timestamp", now_iso); (str_of "level", levelname record);
           (str_of "logger", name record); (str_of "message", message)]
          ++ [(str_of "exc_info", formatException ei)]).
  apply Forall_app. split; [exact Hbase|].
  apply Forall_cons. split; [|apply Forall_nil_2].
  split; cbn [fst snd]; [apply K; repeat constructor|apply Hexc; reflexivity].
Qed.

Lemma format_round_trip_example :
  getMessage percent_sd unicode_record = Ok (msg unicode_record)
  /\ exists out,
       format percent_sd (fun _ => []) test_now unicode_record = Ok out
       /\ loads out
          = Some [(str_of "timestamp", test_now); (str_of "level", str_of "INFO");
                  (str_of "logger", str_of "tessera.test");
                  (str_of "message", msg unicode_record)].
Proof.
  split; [reflexivity|].
  apply (format_round_trip percent_sd (fun _ => []) test_now unicode_record
           (msg unicode_record)); try reflexivity;
    repeat constructor.
Defined.

End RoundTrip.
